(** * Streaming coordinator of teehee-chat-backend (app/utils/streaming.py)

    Shallow embedding of [StreamManager], [stream_llm_response],
    [abort_stream] and [continue_stream].

    Modelling choices:
    - UUIDs (message ids, chat session ids) are [nat]; [str] on a UUID is
      injective, so a session key is the chat session id itself.
    - Websockets and provider clients are identified by [nat].
    - The database is a [gmap] from message id to the committed [Message]
      row; the SQLAlchemy object a run mutates is a separate local copy that
      [db.commit()] writes back.
    - Asyncio interleaving: other tasks (abort requests, disconnects, a
      client going away, the database going down) run at the await of each
      [async for] pull; a schedule [nat -> EnvOp] says what runs there. *)

From stdpp Require Import base gmap list strings.
From Stdlib Require Import String ZArith.

(** stdpp makes string append opaque to [simpl]; the run's text
    arithmetic needs it to compute. *)
#[local] Arguments String.append : simpl nomatch.

(** ** Data model *)

(** [message.content], a JSON object with optional "text" and "error" keys. *)
Record Content := mkContent {
  c_text : option string;
  c_error : option string
}.

Definition text_only (t : string) : Content := mkContent (Some t) None.

(** [message.content.get("text", "") if message.content else ""] *)
Definition text_of (content : option Content) : string :=
  match content with
  | Some c => default "" (c_text c)
  | None => ""
  end.

(** app.db.models.Message (the fields the coordinator touches). *)
Record Message := mkMessage {
  chat_session_id : nat;
  parent_message_id : option nat;
  role : string;
  content : option Content;
  is_partial : bool;
  model : option string;
  provider : option string
}.

Definition set_content (m : Message) (c : option Content) : Message :=
  mkMessage (chat_session_id m) (parent_message_id m) (role m) c
    (is_partial m) (model m) (provider m).

Definition set_is_partial (m : Message) (b : bool) : Message :=
  mkMessage (chat_session_id m) (parent_message_id m) (role m) (content m)
    b (model m) (provider m).

(** JSON frames sent over a websocket. *)
Inductive Event :=
| EvStreamStart (message_id : nat)                        (* "stream_start" *)
| EvStreamContinue (message_id : nat) (existing : string) (* "stream_continue" *)
| EvToken (message_id : nat) (token content : string)     (* "token" *)
| EvStreamComplete (message_id : nat) (content : string)  (* "stream_complete" *)
| EvStreamError (message_id : nat) (error : string) (content : option string)
| EvStreamAborted.                                        (* "stream_aborted" *)

(** Exceptions raised inside a run. *)
Inductive Exc :=
| ProviderError (msg : string)   (* raised by provider.stream_chat *)
| SocketError                    (* websocket.send_text on a closed socket *)
| DbError                        (* db.commit() failure *)
| UnboundLocal                   (* reading [content] before assignment *)
| ValueError (msg : string).

Definition exc_str (e : Exc) : string :=
  match e with
  | ProviderError m => m
  | SocketError => "websocket is closed"
  | DbError => "database error"
  | UnboundLocal => "local variable 'content' referenced before assignment"
  | ValueError m => m
  end.

(** The process: stream manager, database, websockets, provider clients. *)
Record World := mkWorld {
  active_connections : gmap nat nat;   (* session key -> websocket *)
  streaming_sessions : gset nat;
  messages : gmap nat Message;         (* committed rows *)
  db_available : bool;                 (* whether db.commit() succeeds *)
  next_message_id : nat;
  closed_sockets : gset nat;           (* sockets whose send_text raises *)
  sent : list (nat * Event);           (* frames delivered, per socket *)
  closed_providers : list nat          (* provider.close() calls, in order *)
}.

Definition set_active_connections (w : World) (x : gmap nat nat) : World :=
  mkWorld x (streaming_sessions w) (messages w) (db_available w)
    (next_message_id w) (closed_sockets w) (sent w) (closed_providers w).
Definition set_streaming_sessions (w : World) (x : gset nat) : World :=
  mkWorld (active_connections w) x (messages w) (db_available w)
    (next_message_id w) (closed_sockets w) (sent w) (closed_providers w).
Definition set_messages (w : World) (x : gmap nat Message) : World :=
  mkWorld (active_connections w) (streaming_sessions w) x (db_available w)
    (next_message_id w) (closed_sockets w) (sent w) (closed_providers w).
Definition set_db_available (w : World) (x : bool) : World :=
  mkWorld (active_connections w) (streaming_sessions w) (messages w) x
    (next_message_id w) (closed_sockets w) (sent w) (closed_providers w).
Definition set_next_message_id (w : World) (x : nat) : World :=
  mkWorld (active_connections w) (streaming_sessions w) (messages w)
    (db_available w) x (closed_sockets w) (sent w) (closed_providers w).
Definition set_closed_sockets (w : World) (x : gset nat) : World :=
  mkWorld (active_connections w) (streaming_sessions w) (messages w)
    (db_available w) (next_message_id w) x (sent w) (closed_providers w).
Definition set_sent (w : World) (x : list (nat * Event)) : World :=
  mkWorld (active_connections w) (streaming_sessions w) (messages w)
    (db_available w) (next_message_id w) (closed_sockets w) x
    (closed_providers w).
Definition set_closed_providers (w : World) (x : list nat) : World :=
  mkWorld (active_connections w) (streaming_sessions w) (messages w)
    (db_available w) (next_message_id w) (closed_sockets w) (sent w) x.

(** [await websocket.send_text(json.dumps(ev))]: [None] when it raises. *)
Definition ws_send (websocket : nat) (ev : Event) (w : World) : option World :=
  if bool_decide (websocket ∈ closed_sockets w) then None
  else Some (set_sent w (sent w ++ [(websocket, ev)])).

(** [await provider.close()] *)
Definition close_provider (p : nat) (w : World) : World :=
  set_closed_providers w (closed_providers w ++ [p]).

(** ** StreamManager *)
Module StreamManager.

Definition connect (websocket session_id : nat) (w : World) : World :=
  set_active_connections w (<[session_id := websocket]> (active_connections w)).

Definition disconnect (session_id : nat) (w : World) : World :=
  let w1 := if bool_decide (session_id ∈ dom (active_connections w))
            then set_active_connections w (delete session_id (active_connections w))
            else w in
  set_streaming_sessions w1 (streaming_sessions w1 ∖ {[session_id]}).

Definition send_message (session_id : nat) (ev : Event) (w : World) : World :=
  match active_connections w !! session_id with
  | Some websocket =>
      match ws_send websocket ev w with
      | Some w' => w'
      | None => disconnect session_id w      (* bare except: disconnect *)
      end
  | None => w
  end.

Definition is_streaming (session_id : nat) (w : World) : bool :=
  bool_decide (session_id ∈ streaming_sessions w).

Definition start_streaming (session_id : nat) (w : World) : World :=
  set_streaming_sessions w (streaming_sessions w ∪ {[session_id]}).

Definition stop_streaming (session_id : nat) (w : World) : World :=
  set_streaming_sessions w (streaming_sessions w ∖ {[session_id]}).

End StreamManager.

Import StreamManager.

(** [abort_stream(chat_session_id, db)] *)
Definition abort_stream (chat_session_id : nat) (w : World) : World * bool :=
  let session_key := chat_session_id in
  if is_streaming session_key w then
    let w1 := stop_streaming session_key w in
    (send_message session_key EvStreamAborted w1, true)
  else (w, false).

(** ** Other tasks interleaved at an await *)
Inductive EnvOp :=
| EnvNop
| EnvAbort (chat_session_id : nat)       (* POST /stream/{id}/abort *)
| EnvDisconnect (session_id : nat)       (* stream_manager.disconnect *)
| EnvClientGone (websocket : nat)        (* the client drops the socket *)
| EnvDbDown
| EnvDbUp.

Definition apply_env (op : EnvOp) (w : World) : World :=
  match op with
  | EnvNop => w
  | EnvAbort s => fst (abort_stream s w)
  | EnvDisconnect s => disconnect s w
  | EnvClientGone ws => set_closed_sockets w (closed_sockets w ∪ {[ws]})
  | EnvDbDown => set_db_available w false
  | EnvDbUp => set_db_available w true
  end.

(** ** The coroutine monad: state, Python locals, exceptions *)
Module Run.

(** The locals of a run that are mutated across try/except/finally:
    [content] ([None] while unassigned) and the ORM message object. *)
Record Frame := mkFrame {
  fr_world : World;
  fr_content : option string;
  fr_message : Message
}.

Definition M (A : Type) : Type := Frame -> Frame * (Exc + A).

Definition ret {A} (a : A) : M A := fun fr => (fr, inr a).

Definition bind {A B} (m : M A) (k : A -> M B) : M B := fun fr =>
  match m fr with
  | (fr', inr a) => k a fr'
  | (fr', inl e) => (fr', inl e)
  end.

Definition throw {A} (e : Exc) : M A := fun fr => (fr, inl e).

(** [try: m  except Exception as e: h e] *)
Definition try_except {A} (m : M A) (h : Exc -> M A) : M A := fun fr =>
  match m fr with
  | (fr', inl e) => h e fr'
  | r => r
  end.

(** [try: m  finally: f]; an exception of [f] replaces the result. *)
Definition try_finally {A} (m : M A) (f : M unit) : M A := fun fr =>
  let '(fr1, r) := m fr in
  match f fr1 with
  | (fr2, inl e) => (fr2, inl e)
  | (fr2, inr _) => (fr2, r)
  end.

End Run.

Import Run.

#[global] Instance run_ret : MRet M := fun A a => Run.ret a.
#[global] Instance run_bind : MBind M := fun A B k m => Run.bind m k.

Definition world_op (f : World -> World) : M unit := fun fr =>
  (mkFrame (f (fr_world fr)) (fr_content fr) (fr_message fr), inr tt).

(** Reading the local [content]. *)
Definition read_content : M string := fun fr =>
  match fr_content fr with
  | Some c => (fr, inr c)
  | None => (fr, inl UnboundLocal)
  end.

(** [content = c] *)
Definition assign_content (c : string) : M unit := fun fr =>
  (mkFrame (fr_world fr) (Some c) (fr_message fr), inr tt).

(** Attribute assignment on the ORM object. *)
Definition update_message (f : Message -> Message) : M unit := fun fr =>
  (mkFrame (fr_world fr) (fr_content fr) (f (fr_message fr)), inr tt).

(** [await db.commit()]: flushes the object, row [message_id]. *)
Definition commit (message_id : nat) : M unit := fun fr =>
  let w := fr_world fr in
  if db_available w then
    (mkFrame (set_messages w (<[message_id := fr_message fr]> (messages w)))
       (fr_content fr) (fr_message fr), inr tt)
  else (fr, inl DbError).

(** [if websocket: await websocket.send_text(...)] *)
Definition send_opt (websocket : option nat) (ev : Event) : M unit := fun fr =>
  match websocket with
  | None => (fr, inr tt)
  | Some ws =>
      match ws_send ws ev (fr_world fr) with
      | Some w' => (mkFrame w' (fr_content fr) (fr_message fr), inr tt)
      | None => (fr, inl SocketError)
      end
  end.

(** The token source of one [provider.stream_chat(messages, model)] call:
    the fragments it yields, then normal end or a terminal error. *)
Record TokenSource := mkTokenSource {
  fragments : list string;
  terminal_error : option string
}.

(** Run a coroutine body from a frame; its result and the final world. *)
Definition run_frame {A} (m : M A) (fr : Frame) : World * (Exc + A) :=
  let '(fr', r) := m fr in (fr_world fr', r).

Section Runs.

(** What other tasks do at the await of the [i]-th pull. *)
Variable sched : nat -> EnvOp.

Definition await_pull (i : nat) : M unit := world_op (apply_env (sched i)).

(** [async for token in provider.stream_chat(messages, model): body] *)
Fixpoint async_for (i : nat) (frags : list string) (err : option string)
    (body : string -> M unit) : M unit :=
  await_pull i ;;
  match frags with
  | [] =>
      match err with
      | None => Run.ret tt
      | Some msg => Run.throw (ProviderError msg)
      end
  | token :: rest => body token ;; async_for (S i) rest err body
  end.

(** The loop body, the same in both runs:
    [content += token; message.content = {"text": content};
     await db.commit(); if websocket: send token]. *)
Definition on_token (message_id : nat) (websocket : option nat)
    (token : string) : M unit :=
  c ← read_content ;
  assign_content (c +:+ token) ;;
  c' ← read_content ;
  update_message (fun m => set_content m (Some (text_only c'))) ;;
  commit message_id ;;
  send_opt websocket (EvToken message_id token c').

(** [finally: stream_manager.stop_streaming(session_key); await provider.close()] *)
Definition cleanup (session_key provider_id : nat) : M unit :=
  world_op (stop_streaming session_key) ;;
  world_op (close_provider provider_id).

(** [stream_llm_response]; [provider_id] is the client [get_provider]
    returned before the assistant message is created. *)
Definition stream_llm_response (w : World) (message_id chat_session_id : nat)
    (provider_name model_name : string) (provider_id : nat)
    (src : TokenSource) (websocket : option nat) : World * (Exc + string) :=
  let assistant_message :=
    mkMessage chat_session_id (Some message_id) "assistant"
      (Some (text_only "")) true (Some model_name) (Some provider_name) in
  if negb (db_available w) then (w, inl DbError) else
  let mid := next_message_id w in
  let w1 := set_next_message_id
              (set_messages w (<[mid := assistant_message]> (messages w))) (S mid) in
  let session_key := chat_session_id in
  let body : M unit :=
    world_op (start_streaming session_key) ;;
    send_opt websocket (EvStreamStart mid) ;;
    async_for 0 (fragments src) (terminal_error src) (on_token mid websocket) ;;
    update_message (fun m => set_is_partial m false) ;;
    c ← read_content ;
    update_message (fun m => set_content m (Some (text_only c))) ;;
    commit mid ;;
    c2 ← read_content ;
    send_opt websocket (EvStreamComplete mid c2) in
  let handler (e : Exc) : M unit :=
    c ← read_content ;
    update_message (fun m => set_content m (Some (mkContent (Some c) (Some (exc_str e))))) ;;
    update_message (fun m => set_is_partial m false) ;;
    commit mid ;;
    send_opt websocket (EvStreamError mid (exc_str e) (Some c)) ;;
    Run.throw e in
  let prog : M string :=
    try_finally (try_except body handler) (cleanup session_key provider_id) ;;
    read_content in
  run_frame prog (mkFrame w1 (Some "") assistant_message).

(** [continue_stream] *)
Definition continue_stream (w : World) (message_id : nat)
    (provider_name model_name : string) (provider_id : nat)
    (src : TokenSource) (websocket : option nat) : World * (Exc + string) :=
  match messages w !! message_id with
  | Some message =>
      if is_partial message then
        let existing_content := text_of (content message) in
        let session_key := chat_session_id message in
        let body : M unit :=
          world_op (start_streaming session_key) ;;
          send_opt websocket (EvStreamContinue message_id existing_content) ;;
          assign_content existing_content ;;
          async_for 0 (fragments src) (terminal_error src)
            (on_token message_id websocket) ;;
          update_message (fun m => set_is_partial m false) ;;
          commit message_id ;;
          c ← read_content ;
          send_opt websocket (EvStreamComplete message_id c) in
        let handler (e : Exc) : M unit :=
          c ← read_content ;
          update_message (fun m => set_content m (Some (mkContent (Some c) (Some (exc_str e))))) ;;
          update_message (fun m => set_is_partial m false) ;;
          commit message_id ;;
          send_opt websocket (EvStreamError message_id (exc_str e) None) ;;
          Run.throw e in
        let prog : M string :=
          try_finally (try_except body handler) (cleanup session_key provider_id) ;;
          read_content in
        run_frame prog (mkFrame w None message)
      else (w, inl (ValueError "Message not found or not partial"))
  | None => (w, inl (ValueError "Message not found or not partial"))
  end.

End Runs.

(** ** Specification vocabulary *)

(** The text a fragment list accumulates to ([content += token] in order). *)
Fixpoint join (frags : list string) : string :=
  match frags with
  | [] => ""
  | t :: rest => t +:+ join rest
  end.

Definition str_prefix (a b : string) : Prop := ∃ r, b = a +:+ r.

(** Tasks that neither close the client's socket nor take the database
    down: abort requests, disconnects, nothing. *)
Definition benign (op : EnvOp) : bool :=
  match op with
  | EnvClientGone _ | EnvDbDown => false
  | _ => true
  end.

Definition ws_live (websocket : option nat) (w : World) : Prop :=
  match websocket with
  | Some ws => ws ∉ closed_sockets w
  | None => True
  end.

(** A read of the store: the committed row's ["text"] (or ""). *)
Definition stored_text (w : World) (message_id : nat) : string :=
  match messages w !! message_id with
  | Some m => text_of (content m)
  | None => ""
  end.

(** Weakest precondition of a run fragment: normal result [Q],
    exception [E]. *)
Definition wp {A} (m : M A) (Q : A → Frame → Prop) (E : Exc → Frame → Prop)
    (fr : Frame) : Prop :=
  match m fr with
  | (fr', inr a) => Q a fr'
  | (fr', inl e) => E e fr'
  end.

(** State of a run inside its [async for] with everything healthy:
    [content] is [c], the committed row is the ORM object, whose text is
    [c], the database is up and the socket (if any) is open. *)
Definition loop_ok (message_id : nat) (websocket : option nat) (c : string)
    (fr : Frame) : Prop :=
  fr_content fr = Some c ∧
  db_available (fr_world fr) = true ∧
  ws_live websocket (fr_world fr) ∧
  messages (fr_world fr) !! message_id = Some (fr_message fr) ∧
  text_of (content (fr_message fr)) = c.

(** Write-before-emit invariant: every token frame sent since [base] is
    for [message_id], carries a running total ending in its token, and that
    total is a prefix of the committed text, of the ORM object's text and
    of the local [content]. *)
Definition tokens_durable (message_id : nat) (base : list (nat * Event))
    (fr : Frame) : Prop :=
  ∃ new, sent (fr_world fr) = base ++ new ∧
  ∀ ws m tok cnt, (ws, EvToken m tok cnt) ∈ new →
    m = message_id ∧ (∃ pre, cnt = pre +:+ tok) ∧
    str_prefix cnt (stored_text (fr_world fr) message_id) ∧
    str_prefix cnt (text_of (content (fr_message fr))) ∧
    match fr_content fr with Some c => str_prefix cnt c | None => False end.

(** The same, as seen in the world a run leaves behind. *)
Definition tokens_durable_world (message_id : nat) (base : list (nat * Event))
    (w : World) : Prop :=
  ∃ new, sent w = base ++ new ∧
  ∀ ws m tok cnt, (ws, EvToken m tok cnt) ∈ new →
    m = message_id ∧ (∃ pre, cnt = pre +:+ tok) ∧
    str_prefix cnt (stored_text w message_id).

(** [m] preserves the frame invariant [I], whether it returns or raises. *)
Definition inv_wp {A} (I : Frame → Prop) (m : M A) : Prop :=
  ∀ fr, I fr → wp m (λ _, I) (λ _, I) fr.

(** The provider clients closed so far are [L]. *)
Definition providers_are (L : list nat) (fr : Frame) : Prop :=
  closed_providers (fr_world fr) = L.

(** ** Concrete states *)

(** A process with no connection and no row; the database is up and the
    next row id is 100. *)
Definition w_demo : World := mkWorld ∅ ∅ ∅ true 100 ∅ [] [].

(** Session 7 connected through websocket 3. *)
Definition w_conn : World := connect 3 7 w_demo.

(** Row 1: a partial assistant message of session 7 with text "Hel". *)
Definition partial_hel : Message :=
  mkMessage 7 (Some 0) "assistant" (Some (text_only "Hel")) true
    (Some "m") (Some "mock").

Definition w_partial : World := set_messages w_demo {[1 := partial_hel]}.

(** Row 1 as above, and session 7 marked streaming by a run in progress. *)
Definition w_busy : World := start_streaming 7 w_partial.

(** One task [op] at the await of the [k]-th pull, nothing elsewhere. *)
Definition op_at (k : nat) (op : EnvOp) : nat → EnvOp :=
  λ i, if Nat.eqb i k then op else EnvNop.

(** ** Further code: broadcast, providers, endpoints *)

(** [broadcast(message)]: [send_message] to each session of the snapshot
    [list(self.active_connections.keys())], in that order.  A Python dict
    iterates in insertion order, which a [gmap] does not record, so the
    snapshot is an argument. *)
Fixpoint broadcast (keys : list nat) (ev : Event) (w : World) : World :=
  match keys with
  | [] => w
  | session_id :: rest => broadcast rest ev (send_message session_id ev w)
  end.

(** ** Provider clients (app/services/provider_clients.py) *)

(** *** JSON values and the Python operations the providers apply to them *)

(** A decoded JSON value.  A number is [mantissa * 10^exponent]. *)
#[warnings="-register-all"]
Inductive Json :=
| JNull
| JBool (b : bool)
| JNum (mantissa exponent : Z)
| JStr (s : string)
| JArr (xs : list Json)
| JObj (kvs : list (string * Json)).

(** Exceptions other than [JSONDecodeError] the parsing code can raise. *)
Inductive PyExc := PyTypeError | PyAttributeError | PyKeyError | PyIndexError.

#[global] Instance py_ret : MRet (sum PyExc) := fun A a => inr a.
#[global] Instance py_bind : MBind (sum PyExc) := fun A B k m =>
  match m with
  | inl e => inl e
  | inr a => k a
  end.

(** [d[k]] of an object [json.loads] built: a repeated key keeps its last
    value. *)
Fixpoint obj_lookup (k : string) (kvs : list (string * Json)) : option Json :=
  match kvs with
  | [] => None
  | (k', v) :: rest =>
      match obj_lookup k rest with
      | Some x => Some x
      | None => if String.eqb k' k then Some v else None
      end
  end.

(** [sub in s] on strings. *)
Fixpoint str_contains (sub s : string) : bool :=
  String.prefix sub s ||
  match s with
  | EmptyString => false
  | String _ s' => str_contains sub s'
  end.

(** [key in x] *)
Definition py_in (key : string) (x : Json) : PyExc + bool :=
  match x with
  | JObj kvs => inr (if obj_lookup key kvs then true else false)
  | JArr xs => inr (existsb (fun y => match y with
                                       | JStr s => String.eqb s key
                                       | _ => false
                                       end) xs)
  | JStr s => inr (str_contains key s)
  | _ => inl PyTypeError
  end.

(** [x[key]] with a string key *)
Definition py_getitem (x : Json) (key : string) : PyExc + Json :=
  match x with
  | JObj kvs =>
      match obj_lookup key kvs with
      | Some v => inr v
      | None => inl PyKeyError
      end
  | _ => inl PyTypeError
  end.

(** [x.get(key, d)] *)
Definition py_get (x : Json) (key : string) (d : Json) : PyExc + Json :=
  match x with
  | JObj kvs => inr (default d (obj_lookup key kvs))
  | _ => inl PyAttributeError
  end.

(** [len(x)]; for a string, its UTF-8 bytes (only compared with 0 below). *)
Definition py_len (x : Json) : PyExc + nat :=
  match x with
  | JArr xs => inr (List.length xs)
  | JStr s => inr (String.length s)
  | JObj kvs => inr (List.length (remove_dups (map fst kvs)))
  | _ => inl PyTypeError
  end.

(** [x[0]]; on a string, a one-character string (only its type matters
    below); an object has no key [0], JSON keys being strings. *)
Definition py_index0 (x : Json) : PyExc + Json :=
  match x with
  | JArr (y :: _) => inr y
  | JArr [] => inl PyIndexError
  | JStr (String c _) => inr (JStr (String c EmptyString))
  | JStr EmptyString => inl PyIndexError
  | JObj _ => inl PyKeyError
  | _ => inl PyTypeError
  end.

(** [x == s] for a string literal [s]. *)
Definition json_is_str (x : Json) (s : string) : bool :=
  match x with
  | JStr t => String.eqb t s
  | _ => false
  end.

(** [bool(x)] *)
Definition py_truthy (x : Json) : bool :=
  match x with
  | JNull => false
  | JBool b => b
  | JNum m _ => negb (Z.eqb m 0)
  | JStr s => negb (String.eqb s "")
  | JArr xs => negb (Nat.eqb (List.length xs) 0)
  | JObj kvs => negb (Nat.eqb (List.length kvs) 0)
  end.

(** One decoded chunk of [OpenAIProvider.stream_chat] (and of
    [MistralProvider.stream_chat], which has the same code):
    [if "choices" in data and len(data["choices"]) > 0:
       delta = data["choices"][0].get("delta", {})
       if "content" in delta: yield delta["content"]] *)
Definition openai_chunk (data : Json) : PyExc + option Json :=
  has ← py_in "choices" data;
  if negb has then inr None else
  choices ← py_getitem data "choices";
  n ← py_len choices;
  if Nat.eqb n 0 then inr None else
  c0 ← py_index0 choices;
  delta ← py_get c0 "delta" (JObj []);
  hc ← py_in "content" delta;
  if negb hc then inr None else
  v ← py_getitem delta "content";
  inr (Some v).

(** One decoded event of [AnthropicProvider.stream_chat]:
    [if data.get("type") == "content_block_delta":
       delta = data.get("delta", {})
       if "text" in delta: yield delta["text"]] *)
Definition anthropic_event (data : Json) : PyExc + option Json :=
  ty ← py_get data "type" JNull;
  if negb (json_is_str ty "content_block_delta") then inr None else
  delta ← py_get data "delta" (JObj []);
  ht ← py_in "text" delta;
  if negb ht then inr None else
  v ← py_getitem delta "text";
  inr (Some v).

(** [line[6:]] of a line starting with ["data: "]. *)
Definition data_payload (line : string) : string :=
  String.substring 6 (String.length line - 6) line.

Section Lines.

(** [json.loads]: [None] when it raises [JSONDecodeError]. *)
Variable loads : string -> option Json.

(** [async for line in response.aiter_lines()] of the OpenAI and Mistral
    providers, after [raise_for_status()] passed: the values yielded, then
    the exception that ends the generator, if any. *)
Fixpoint openai_lines (lines : list string) : list Json * option PyExc :=
  match lines with
  | [] => ([], None)
  | line :: rest =>
      if String.prefix "data: " line then
        let data_str := data_payload line in
        if String.eqb data_str "[DONE]" then ([], None)
        else
          match loads data_str with
          | None => openai_lines rest
          | Some data =>
              match openai_chunk data with
              | inl e => ([], Some e)
              | inr None => openai_lines rest
              | inr (Some v) => prod_map (cons v) id (openai_lines rest)
              end
          end
      else openai_lines rest
  end.

(** The same loop of the Anthropic provider: no ["[DONE]"] check. *)
Fixpoint anthropic_lines (lines : list string) : list Json * option PyExc :=
  match lines with
  | [] => ([], None)
  | line :: rest =>
      if String.prefix "data: " line then
        match loads (data_payload line) with
        | None => anthropic_lines rest
        | Some data =>
            match anthropic_event data with
            | inl e => ([], Some e)
            | inr None => anthropic_lines rest
            | inr (Some v) => prod_map (cons v) id (anthropic_lines rest)
            end
        end
      else anthropic_lines rest
  end.

End Lines.

(** An entry of the [messages] list passed to [stream_chat]:
    [{"role": msg.role, "content": msg.content.get("text", "")}]. *)
Record ChatTurn := mkChatTurn {
  turn_role : string;
  turn_content : Json
}.

(** The loop of [AnthropicProvider.stream_chat] that takes the system
    message out: [(system_message, formatted_messages)]. *)
Fixpoint anthropic_split (system_message : Json) (formatted_messages : list ChatTurn)
    (msgs : list ChatTurn) : Json * list ChatTurn :=
  match msgs with
  | [] => (system_message, formatted_messages)
  | msg :: rest =>
      if String.eqb (turn_role msg) "system"
      then anthropic_split (turn_content msg) formatted_messages rest
      else anthropic_split system_message (formatted_messages ++ [msg]) rest
  end.

(** The ["system"] and ["messages"] fields of the Anthropic request body:
    [if system_message: data["system"] = system_message]. *)
Definition anthropic_request (msgs : list ChatTurn) : option Json * list ChatTurn :=
  let '(system_message, formatted_messages) := anthropic_split (JStr "") [] msgs in
  (if py_truthy system_message then Some system_message else None, formatted_messages).

(** ** The stream endpoints (app/api/stream.py) *)

(** A row of the [messages] query, in [order_by(Message.timestamp)] order. *)
Record Row := mkRow {
  row_id : nat;
  row_role : string;
  row_content : Json
}.

(** One step of the conversation loops:
    [if not msg.content.get("deleted", False):
       conversation.append({"role": msg.role,
                            "content": msg.content.get("text", "")})] *)
Definition conversation_entry (msg : Row) : PyExc + option ChatTurn :=
  d ← py_get (row_content msg) "deleted" (JBool false);
  if py_truthy d then inr None else
  t ← py_get (row_content msg) "text" (JStr "");
  inr (Some (mkChatTurn (row_role msg) t)).

(** The conversation [handle_stream_message] builds. *)
Fixpoint build_conversation (rows : list Row) : PyExc + list ChatTurn :=
  match rows with
  | [] => inr []
  | msg :: rest =>
      e ← conversation_entry msg;
      tl ← build_conversation rest;
      inr (option_list e ++ tl)
  end.

(** The conversation [continue_message_stream] builds:
    [if msg.id == message_id: break] first. *)
Fixpoint conversation_before (message_id : nat) (rows : list Row) : PyExc + list ChatTurn :=
  match rows with
  | [] => inr []
  | msg :: rest =>
      if Nat.eqb (row_id msg) message_id then inr [] else
      e ← conversation_entry msg;
      tl ← conversation_before message_id rest;
      inr (option_list e ++ tl)
  end.

(** The content [delete_message] (app/api/messages.py) stores. *)
Definition deleted_content : Json :=
  JObj [("text", JStr "[Message deleted]"); ("deleted", JBool true)].

(** Spec vocabulary. *)

(** The frame [send_message session_id ev] delivers in [w], if any. *)
Definition delivery (w : World) (ev : Event) (session_id : nat) : option (nat * Event) :=
  match active_connections w !! session_id with
  | Some ws => if bool_decide (ws ∈ closed_sockets w) then None else Some (ws, ev)
  | None => None
  end.

(** A session whose registered socket is closed. *)
Definition dead_session (w : World) (session_id : nat) : bool :=
  match active_connections w !! session_id with
  | Some ws => bool_decide (ws ∈ closed_sockets w)
  | None => false
  end.

(** The Token Source a provider response gives a run: its yielded
    strings, when it ends normally and yields only strings. *)
Definition source_of (r : list Json * option PyExc) : option TokenSource :=
  match r with
  | (ys, None) =>
      frags ← mapM (fun y => match y with JStr s => Some s | _ => None end) ys;
      Some (mkTokenSource frags None)
  | (_, Some _) => None
  end.

(** ** Lemmas *)

Lemma str_app_assoc (a b c : string) : (a +:+ b) +:+ c = a +:+ (b +:+ c).
Proof. induction a as [|x a IH]; cbn; [done | f_equal; exact IH]. Qed.

Lemma str_app_nil_r (a : string) : a +:+ "" = a.
Proof. induction a as [|x a IH]; cbn; [done | f_equal; exact IH]. Qed.

Lemma str_prefix_refl a : str_prefix a a.
Proof. exists "". by rewrite str_app_nil_r. Qed.

Lemma str_prefix_app a b c : str_prefix a b → str_prefix a (b +:+ c).
Proof. intros [r ->]. exists (r +:+ c). apply str_app_assoc. Qed.

Lemma str_prefix_nil a : str_prefix "" a.
Proof. by exists a. Qed.

Lemma stored_text_set_sent w l k : stored_text (set_sent w l) k = stored_text w k.
Proof. done. Qed.

Lemma wp_bind {A B} (m : M A) (k : A → M B) Q E fr :
  wp (m ≫= k) Q E fr = wp m (λ a, wp (k a) Q E) E fr.
Proof.
  unfold wp, mbind, run_bind, Run.bind.
  destruct (m fr) as [fr' [e|a]]; reflexivity.
Qed.

Lemma wp_ret {A} (a : A) Q E fr : wp (Run.ret a) Q E fr = Q a fr.
Proof. reflexivity. Qed.

Lemma wp_throw {A} e Q E fr : wp (Run.throw (A:=A) e) Q E fr = E e fr.
Proof. reflexivity. Qed.

Lemma wp_try_except {A} (m : M A) h Q E fr :
  wp (try_except m h) Q E fr = wp m Q (λ e, wp (h e) Q E) fr.
Proof. unfold wp, try_except. by destruct (m fr) as [fr' [e|a]]. Qed.

Lemma wp_try_finally {A} (m : M A) f Q E fr :
  wp (try_finally m f) Q E fr =
  wp m (λ a fr1, wp f (λ _ fr2, Q a fr2) E fr1)
       (λ e fr1, wp f (λ _ fr2, E e fr2) E fr1) fr.
Proof.
  unfold wp, try_finally.
  destruct (m fr) as [fr1 [e|a]]; by destruct (f fr1) as [fr2 [e'|[]]].
Qed.

Lemma wp_mono {A} (m : M A) (Q Q' : A → Frame → Prop) (E E' : Exc → Frame → Prop) fr :
  (∀ a fr', Q a fr' → Q' a fr') → (∀ e fr', E e fr' → E' e fr') →
  wp m Q E fr → wp m Q' E' fr.
Proof. unfold wp. destruct (m fr) as [fr' [e|a]]; eauto. Qed.

Lemma wp_world_op f Q E fr :
  wp (world_op f) Q E fr = Q tt (mkFrame (f (fr_world fr)) (fr_content fr) (fr_message fr)).
Proof. reflexivity. Qed.

Lemma wp_read_content Q E fr :
  wp read_content Q E fr =
  match fr_content fr with Some c => Q c fr | None => E UnboundLocal fr end.
Proof. unfold wp, read_content. by destruct (fr_content fr). Qed.

Lemma wp_assign_content c Q E fr :
  wp (assign_content c) Q E fr = Q tt (mkFrame (fr_world fr) (Some c) (fr_message fr)).
Proof. reflexivity. Qed.

Lemma wp_update_message f Q E fr :
  wp (update_message f) Q E fr = Q tt (mkFrame (fr_world fr) (fr_content fr) (f (fr_message fr))).
Proof. reflexivity. Qed.

Lemma wp_commit mid Q E fr :
  wp (commit mid) Q E fr =
  if db_available (fr_world fr)
  then Q tt (mkFrame (set_messages (fr_world fr)
                        (<[mid := fr_message fr]> (messages (fr_world fr))))
               (fr_content fr) (fr_message fr))
  else E DbError fr.
Proof. unfold wp, commit. by destruct (db_available (fr_world fr)). Qed.

Lemma wp_send_opt websocket ev Q E fr :
  wp (send_opt websocket ev) Q E fr =
  match websocket with
  | None => Q tt fr
  | Some ws =>
      match ws_send ws ev (fr_world fr) with
      | Some w' => Q tt (mkFrame w' (fr_content fr) (fr_message fr))
      | None => E SocketError fr
      end
  end.
Proof.
  unfold wp, send_opt. destruct websocket as [ws|]; [|done].
  by destruct (ws_send ws ev (fr_world fr)).
Qed.


Lemma run_frame_intro {A} (m : M A) fr0 (Φ : World → Exc + A → Prop) :
  wp m (λ a fr, Φ (fr_world fr) (inr a)) (λ e fr, Φ (fr_world fr) (inl e)) fr0 →
  ∀ w' r, run_frame m fr0 = (w', r) → Φ w' r.
Proof.
  unfold wp, run_frame. destruct (m fr0) as [fr [e|a]]; intros H w' r [= <- <-]; done.
Qed.

Lemma wp_async_for_nil sched i err body Q E fr :
  wp (async_for sched i [] err body) Q E fr =
  wp (await_pull sched i ≫= λ _,
      match err with None => Run.ret tt | Some msg => Run.throw (ProviderError msg) end) Q E fr.
Proof. reflexivity. Qed.

Lemma wp_async_for_cons sched i t rest err body Q E fr :
  wp (async_for sched i (t :: rest) err body) Q E fr =
  wp (await_pull sched i ≫= λ _, body t ≫= λ _, async_for sched (S i) rest err body) Q E fr.
Proof. reflexivity. Qed.

Lemma wp_await_pull sched i Q E fr :
  wp (await_pull sched i) Q E fr =
  Q tt (mkFrame (apply_env (sched i) (fr_world fr)) (fr_content fr) (fr_message fr)).
Proof. reflexivity. Qed.

Lemma ws_send_live ws ev w :
  ws ∉ closed_sockets w → ws_send ws ev w = Some (set_sent w (sent w ++ [(ws, ev)])).
Proof. intros H. unfold ws_send. by rewrite bool_decide_eq_false_2. Qed.

Lemma ws_send_closed ws ev w :
  ws ∈ closed_sockets w → ws_send ws ev w = None.
Proof. intros H. unfold ws_send. by rewrite bool_decide_eq_true_2. Qed.

Lemma wp_on_token mid ws t Q E fr :
  wp (on_token mid ws t) Q E fr =
  wp (c ← read_content ;
      assign_content (c +:+ t) ;;
      c' ← read_content ;
      update_message (fun m => set_content m (Some (text_only c'))) ;;
      commit mid ;;
      send_opt ws (EvToken mid t c')) Q E fr.
Proof. reflexivity. Qed.

#[global] Arguments wp : simpl never.

Ltac wp_step :=
  first
  [ rewrite wp_bind | rewrite wp_try_except | rewrite wp_try_finally
  | rewrite wp_world_op | rewrite wp_read_content | rewrite wp_assign_content
  | rewrite wp_update_message | rewrite wp_commit | rewrite wp_send_opt
  | rewrite wp_ret | rewrite wp_throw | rewrite wp_async_for_nil
  | rewrite wp_async_for_cons | rewrite wp_await_pull
  | rewrite wp_on_token | progress unfold cleanup ]; cbv beta; simpl.

(** ** Scenario: a fresh start whose source yields "Hel", "lo" *)

(** C6: a fresh start with fragments "Hel", "lo" that end normally: the
    message ends with text "Hello" and is_partial=false, and the socket
    gets start, token("Hel","Hel"), token("lo","Hello"), complete("Hello"). *)
Theorem stream_hello_scenario (w : World) (message_id chat_session_id ws
    provider_id : nat) (provider_name model_name : string) w' r :
  db_available w = true → ws ∉ closed_sockets w →
  stream_llm_response (λ _, EnvNop) w message_id chat_session_id
    provider_name model_name provider_id
    (mkTokenSource ["Hel"; "lo"] None) (Some ws) = (w', r) →
  let mid := next_message_id w in
  r = inr "Hello" ∧
  sent w' = sent w ++ [(ws, EvStreamStart mid); (ws, EvToken mid "Hel" "Hel");
                       (ws, EvToken mid "lo" "Hello"); (ws, EvStreamComplete mid "Hello")] ∧
  (∃ m, messages w' !! mid = Some m ∧
        content m = Some (text_only "Hello") ∧ is_partial m = false) ∧
  chat_session_id ∉ streaming_sessions w'.
Proof.
  intros Hdb Hws. unfold stream_llm_response. rewrite Hdb. cbn [negb].
  revert w' r. apply run_frame_intro.
  repeat (wp_step || rewrite ws_send_live by (simpl; assumption)).
  rewrite !Hdb. split; [done|]. split; [by rewrite <-!app_assoc|].
  split; [|set_solver].
  eexists. rewrite lookup_insert_eq. done.
Qed.

(** ** Interleaved tasks *)

Lemma disconnect_fields s w :
  messages (disconnect s w) = messages w ∧
  closed_providers (disconnect s w) = closed_providers w ∧
  next_message_id (disconnect s w) = next_message_id w ∧
  sent (disconnect s w) = sent w ∧
  db_available (disconnect s w) = db_available w ∧
  closed_sockets (disconnect s w) = closed_sockets w.
Proof. unfold disconnect. by case_bool_decide. Qed.

Lemma send_message_fields s ev w :
  messages (send_message s ev w) = messages w ∧
  closed_providers (send_message s ev w) = closed_providers w ∧
  next_message_id (send_message s ev w) = next_message_id w ∧
  (sent (send_message s ev w) = sent w ∨
   ∃ ws, sent (send_message s ev w) = sent w ++ [(ws, ev)]) ∧
  db_available (send_message s ev w) = db_available w ∧
  closed_sockets (send_message s ev w) = closed_sockets w.
Proof.
  unfold send_message. destruct (active_connections w !! s) as [ws|]; [|auto 10].
  unfold ws_send. case_bool_decide; simpl.
  - pose proof (disconnect_fields s w). naive_solver.
  - eauto 10.
Qed.

(** Another task touches neither the message rows, nor the provider
    clients, and sends no token frame. *)
Lemma apply_env_fields op w :
  messages (apply_env op w) = messages w ∧
  closed_providers (apply_env op w) = closed_providers w ∧
  next_message_id (apply_env op w) = next_message_id w ∧
  (sent (apply_env op w) = sent w ∨
   ∃ ws, sent (apply_env op w) = sent w ++ [(ws, EvStreamAborted)]).
Proof.
  destruct op as [|s|s|ws| |]; simpl; auto.
  - unfold abort_stream. destruct (is_streaming s w); simpl; [|auto].
    pose proof (send_message_fields s EvStreamAborted (stop_streaming s w)) as H.
    simpl in H. naive_solver.
  - pose proof (disconnect_fields s w). naive_solver.
Qed.

Lemma apply_env_benign op w :
  benign op = true → db_available w = true →
  db_available (apply_env op w) = true ∧
  closed_sockets (apply_env op w) = closed_sockets w.
Proof.
  intros Hb Hdb. destruct op as [|s|s|ws| |]; simpl; try done.
  - unfold abort_stream. destruct (is_streaming s w); simpl; [|done].
    pose proof (send_message_fields s EvStreamAborted (stop_streaming s w)) as H.
    simpl in H. naive_solver.
  - pose proof (disconnect_fields s w). naive_solver.
Qed.

(** ** The [async for] loop with benign interleavings *)

Lemma set_content_twice m c1 c2 :
  set_content (set_content m c1) c2 = set_content m c2.
Proof. done. Qed.

Lemma content_set_is_partial m b : content (set_is_partial m b) = content m.
Proof. done. Qed.

Lemma set_content_same m : set_content m (content m) = m.
Proof. by destruct m. Qed.

(** With benign tasks, an open socket and the database up, the loop pulls
    every fragment; [content] ends as the seed followed by all fragments,
    the committed row is the ORM object, and only its content changed. *)
Lemma wp_async_for_benign sched mid ws frags err i c Q E fr :
  (∀ j, benign (sched j) = true) →
  loop_ok mid ws c fr →
  (∀ fr', loop_ok mid ws (c +:+ join frags) fr' →
     set_content (fr_message fr) (content (fr_message fr')) = fr_message fr' →
     messages (fr_world fr') = <[mid := fr_message fr']> (messages (fr_world fr)) →
     closed_providers (fr_world fr') = closed_providers (fr_world fr) →
     next_message_id (fr_world fr') = next_message_id (fr_world fr) →
     match err with
     | None => Q tt fr'
     | Some msg => E (ProviderError msg) fr'
     end) →
  wp (async_for sched i frags err (on_token mid ws)) Q E fr.
Proof.
  intros Hsched. revert i c fr.
  induction frags as [|t rest IH]; intros i c fr Hok Hpost.
  - rewrite wp_async_for_nil, wp_bind, wp_await_pull. cbv beta.
    destruct (apply_env_fields (sched i) (fr_world fr)) as (Hm & Hc & Hn & _).
    destruct (apply_env_benign (sched i) (fr_world fr)) as [Hdb Hcs];
      [done | apply Hok |].
    destruct Hok as (Hcont & Hdb0 & Hws & Hrow & Htext).
    assert (Hok' : loop_ok mid ws (c +:+ join []) (mkFrame (apply_env (sched i) (fr_world fr))
                    (fr_content fr) (fr_message fr))).
    { simpl. rewrite str_app_nil_r. repeat split; simpl; try done.
      - destruct ws; simpl in *; [by rewrite Hcs | done].
      - by rewrite Hm. }
    specialize (Hpost _ Hok'). simpl in Hpost.
    rewrite set_content_same, Hm, insert_id in Hpost by done.
    destruct err as [msg|]; rewrite ?wp_throw, ?wp_ret; by apply Hpost.
  - rewrite wp_async_for_cons, wp_bind, wp_await_pull. cbv beta.
    destruct (apply_env_fields (sched i) (fr_world fr)) as (Hm & Hc & Hn & _).
    destruct (apply_env_benign (sched i) (fr_world fr)) as [Hdb Hcs];
      [done | apply Hok |].
    destruct Hok as (Hcont & Hdb0 & Hws & Hrow & Htext).
    unfold on_token. rewrite !wp_bind, wp_read_content. simpl. rewrite Hcont.
    rewrite wp_bind, wp_assign_content, wp_bind, wp_read_content. simpl.
    rewrite wp_bind, wp_update_message, wp_bind, wp_commit. simpl. rewrite Hdb.
    rewrite wp_send_opt.
    set (obj := set_content (fr_message fr) (Some (text_only (c +:+ t)))).
    set (w1 := set_messages (apply_env (sched i) (fr_world fr))
                 (<[mid := obj]> (messages (apply_env (sched i) (fr_world fr))))).
    set (w2 := match ws with
               | Some s => set_sent w1 (sent w1 ++ [(s, EvToken mid t (c +:+ t))])
               | None => w1 end).
    assert (Hw2 : wp (async_for sched (S i) rest err (on_token mid ws)) Q E
                    (mkFrame w2 (Some (c +:+ t)) obj)).
    { apply (IH (S i) (c +:+ t)).
      - repeat split; simpl.
        + rewrite <-Hdb. by destruct ws.
        + destruct ws as [s|]; simpl in *; [by rewrite Hcs | done].
        + destruct ws; simpl; by rewrite lookup_insert_eq.
      - intros fr' Hok' Hf Hrows Hcp Hnext.
        rewrite str_app_assoc in Hok'.
        apply Hpost; [done | | | |].
        + by rewrite <-Hf.
        + rewrite Hrows. destruct ws; simpl; rewrite Hm, insert_insert_eq; done.
        + rewrite Hcp. destruct ws; simpl; by rewrite Hc.
        + rewrite Hnext. destruct ws; simpl; by rewrite Hn. }
    destruct ws as [s|]; [|exact Hw2].
    rewrite ws_send_live by (simpl; by rewrite Hcs).
    exact Hw2.
Qed.

(** ** The [finally] block *)

(** Whatever the body did, the world a run returns is the body's final
    world with the session's marker removed and the provider closed. *)
Lemma run_frame_cleanup (m : M unit) sk p fr0 w' r :
  run_frame (try_finally m (cleanup sk p) ≫= λ _, read_content) fr0 = (w', r) →
  w' = close_provider p (stop_streaming sk (fr_world (fst (m fr0)))).
Proof.
  unfold run_frame, mbind, run_bind, Run.bind, try_finally, cleanup.
  destruct (m fr0) as [fr1 r1]. simpl.
  destruct r1; simpl; [by intros [= <- _]|].
  destruct (fr_content fr1); simpl; by intros [= <- _].
Qed.

(** ** Resume *)

(** With benign tasks, the database up and an open socket (if any), a
    resume of a partial message pulls every fragment and rewrites the same
    row: its text is the stored text followed by the fragments, and the
    run ends with stream_complete or, on a provider error, stream_error. *)
Lemma continue_stream_benign sched w message_id provider_name model_name
    provider_id frags err websocket msg w' r :
  (∀ j, benign (sched j) = true) →
  messages w !! message_id = Some msg → is_partial msg = true →
  db_available w = true → ws_live websocket w →
  continue_stream sched w message_id provider_name model_name provider_id
    (mkTokenSource frags err) websocket = (w', r) →
  let total := text_of (content msg) +:+ join frags in
  let last_ev := match err with
                 | None => EvStreamComplete message_id total
                 | Some e => EvStreamError message_id e None
                 end in
  (∃ m', messages w' = <[message_id := m']> (messages w) ∧
         m' = set_is_partial (set_content msg (content m')) false ∧
         text_of (content m') = total ∧
         (∀ e, err = Some e → content m' = Some (mkContent (Some total) (Some e)))) ∧
  (r = match err with
       | None => inr total
       | Some e => inl (ProviderError e)
       end) ∧
  (∀ ws, websocket = Some ws → ∃ l, sent w' = l ++ [(ws, last_ev)]) ∧
  (chat_session_id msg ∉ streaming_sessions w') ∧
  closed_providers w' = closed_providers w ++ [provider_id] ∧
  next_message_id w' = next_message_id w.
Proof.
  intros Hsched Hmsg Hpart Hdb Hws. unfold continue_stream.
  rewrite Hmsg, Hpart. revert w' r. apply run_frame_intro.
  destruct websocket as [ws|]; simpl in Hws;
    repeat (wp_step || rewrite ws_send_live by (simpl; assumption));
    (apply (wp_async_for_benign _ _ _ _ _ _ (text_of (content msg)));
    [ done
    | repeat split; simpl; done
    | intros fr' (Hc & Hdb' & Hws' & Hrow & Ht) Hf Hrows Hcp Hnext;
      simpl in Hrows, Hcp, Hnext; destruct err as [e|];
      repeat (wp_step || rewrite ws_send_live by (simpl; assumption));
      rewrite ?Hdb', ?Hc; simpl;
      repeat (wp_step || rewrite ws_send_live by (simpl; assumption));
      rewrite ?Hc, ?Hdb' ]).
  all: split; [eexists; split; [rewrite Hrows, insert_insert_eq; reflexivity|] |].
  all: try (simpl; rewrite <-Hf; simpl; split; [done|];
            split; [done|]; by intros ? [= <-]).
  all: try (simpl; rewrite content_set_is_partial, Hf; split; [done|];
            split; [done|]; by intros ? ?).
  all: split; [done|]; split; [intros ws0 [= <-]; by eexists|].
  all: split; [set_solver|]; split; [by rewrite Hcp | done].
Qed.

(** C7: resuming a partial message seeds [content] with the stored text
    and appends the new fragments to it, in the same row: stored text "Hel"
    and fragments ["lo"] end as "Hello". *)
Theorem continue_extends_partial sched w message_id provider_name model_name
    provider_id frags websocket msg w' r :
  (∀ j, benign (sched j) = true) →
  messages w !! message_id = Some msg → is_partial msg = true →
  db_available w = true → ws_live websocket w →
  continue_stream sched w message_id provider_name model_name provider_id
    (mkTokenSource frags None) websocket = (w', r) →
  r = inr (text_of (content msg) +:+ join frags) ∧
  (∃ m', messages w' !! message_id = Some m' ∧
         text_of (content m') = text_of (content msg) +:+ join frags ∧
         m' = set_is_partial (set_content msg (content m')) false) ∧
  dom (messages w') = dom (messages w) ∧
  next_message_id w' = next_message_id w.
Proof.
  intros Hsched Hmsg Hpart Hdb Hws Hrun.
  destruct (continue_stream_benign sched w message_id provider_name model_name
              provider_id frags None websocket msg w' r Hsched Hmsg Hpart Hdb Hws Hrun)
    as ((m' & Hrows & Hm' & Ht & _) & Hr & _ & _ & _ & Hnext).
  split; [exact Hr|]. split; [|split; [|exact Hnext]].
  - exists m'. rewrite Hrows, lookup_insert_eq. done.
  - rewrite Hrows, dom_insert_L. apply elem_of_dom_2 in Hmsg. set_solver.
Qed.

(** ** A fresh start with benign interleavings *)

Lemma stream_llm_response_benign sched w message_id session_id
    provider_name model_name provider_id frags err websocket w' r :
  (∀ j, benign (sched j) = true) →
  db_available w = true → ws_live websocket w →
  stream_llm_response sched w message_id session_id provider_name
    model_name provider_id (mkTokenSource frags err) websocket = (w', r) →
  let mid := next_message_id w in
  let last_ev := match err with
                 | None => EvStreamComplete mid (join frags)
                 | Some msg => EvStreamError mid msg (Some (join frags))
                 end in
  (∃ m, messages w' = <[mid := m]> (messages w) ∧
        content m = Some (mkContent (Some (join frags)) err) ∧
        is_partial m = false ∧
        chat_session_id m = session_id ∧
        parent_message_id m = Some message_id ∧
        role m = "assistant") ∧
  (r = match err with
       | None => inr (join frags)
       | Some msg => inl (ProviderError msg)
       end) ∧
  (∀ ws, websocket = Some ws → (∃ l, sent w' = l ++ [(ws, last_ev)])) ∧
  (session_id ∉ streaming_sessions w') ∧
  closed_providers w' = closed_providers w ++ [provider_id].
Proof.
  intros Hsched Hdb Hws. unfold stream_llm_response. rewrite Hdb. cbn [negb].
  revert w' r. apply run_frame_intro.
  destruct websocket as [ws|]; simpl in Hws;
    repeat (wp_step || rewrite ws_send_live by (simpl; assumption));
    (apply (wp_async_for_benign _ _ _ _ _ _ "");
    [ done
    | repeat split; simpl; rewrite ?Hdb; try done; by rewrite lookup_insert_eq
    | intros fr' (Hc & Hdb' & Hws' & Hrow & Ht) Hf Hrows Hcp _;
      simpl in Hrows, Hcp, Hf; destruct err as [msg|];
      repeat (wp_step || rewrite ws_send_live by (simpl; assumption));
      rewrite ?Hdb', ?Hc; simpl;
      repeat (wp_step || rewrite ws_send_live by (simpl; assumption));
      rewrite ?Hc, ?Hdb' ]).
  all: split; [eexists; split;
               [rewrite Hrows, !insert_insert_eq; reflexivity
               | rewrite <-Hf; simpl; by repeat split] |].
  all: split; [done|]; split; [intros ws0 [= <-]; by eexists|].
  all: split; [set_solver | by rewrite Hcp].
Qed.

(** ** Frame invariants *)

Section Inv.

Variable I : Frame → Prop.

Lemma inv_bind {A B} (m : M A) (k : A → M B) :
  inv_wp I m → (∀ a, inv_wp I (k a)) → inv_wp I (m ≫= k).
Proof.
  intros Hm Hk fr H. rewrite wp_bind.
  eapply wp_mono; [| |by apply Hm]; [intros a fr' ?; by apply Hk | done].
Qed.

Lemma inv_try_except {A} (m : M A) h :
  inv_wp I m → (∀ e, inv_wp I (h e)) → inv_wp I (try_except m h).
Proof.
  intros Hm Hh fr H. rewrite wp_try_except.
  eapply wp_mono; [| |by apply Hm]; [done | intros e fr' ?; by apply Hh].
Qed.

Lemma inv_try_finally {A} (m : M A) f :
  inv_wp I m → inv_wp I f → inv_wp I (try_finally m f).
Proof.
  intros Hm Hf fr H. rewrite wp_try_finally.
  eapply wp_mono; [| |by apply Hm]; intros ? fr' ?;
    (eapply wp_mono; [| |by apply Hf]; done).
Qed.

Lemma inv_ret {A} (a : A) : inv_wp I (Run.ret a).
Proof. by intros fr H. Qed.

Lemma inv_throw {A} e : inv_wp I (Run.throw (A:=A) e).
Proof. by intros fr H. Qed.

Lemma inv_read_content : inv_wp I read_content.
Proof. intros fr H. rewrite wp_read_content. by destruct (fr_content fr). Qed.

(** The frame a program leaves behind satisfies an invariant it keeps. *)
Lemma inv_wp_fst {A} (m : M A) fr : inv_wp I m → I fr → I (fst (m fr)).
Proof.
  intros Hm H. specialize (Hm fr H). unfold wp in Hm.
  destruct (m fr) as [fr' [e|a]]; done.
Qed.

End Inv.

(** ** Write-before-emit *)

Section Durable.

Variable mid : nat.
Variable base : list (nat * Event).

Abbreviation I := (tokens_durable mid base).

(** A world operation that keeps the rows and sends no token frame. *)
Lemma inv_world_op f :
  (∀ w, messages (f w) = messages w ∧
        (sent (f w) = sent w ∨ ∃ ws ev, sent (f w) = sent w ++ [(ws, ev)] ∧
                                       ∀ m tok cnt, ev ≠ EvToken m tok cnt)) →
  inv_wp I (world_op f).
Proof.
  intros Hf fr (new & Hsent & Hnew). rewrite wp_world_op.
  destruct (Hf (fr_world fr)) as [Hm [Hs | (ws & ev & Hs & Hev)]];
    unfold tokens_durable, stored_text; simpl; rewrite Hm.
  - exists new. rewrite Hs. split; [done|]. apply Hnew.
  - exists (new ++ [(ws, ev)]). rewrite Hs, Hsent, app_assoc. split; [done|].
    intros ws' m tok cnt Hin. apply elem_of_app in Hin as [Hin|Hin]; [exact (Hnew _ _ _ _ Hin)|].
    apply list_elem_of_singleton in Hin. injection Hin as -> Hev'.
    by destruct (Hev m tok cnt).
Qed.

Lemma inv_apply_env (sched : nat → EnvOp) i : inv_wp I (await_pull sched i).
Proof.
  apply inv_world_op. intros w.
  destruct (apply_env_fields (sched i) w) as (Hm & _ & _ & Hs).
  split; [done|]. destruct Hs as [Hs|[ws Hs]]; [by left|right].
  by exists ws, EvStreamAborted.
Qed.

Lemma inv_commit k : inv_wp I (commit k).
Proof.
  intros fr (new & Hsent & Hnew). rewrite wp_commit.
  destruct (db_available (fr_world fr)); [|by exists new].
  exists new. simpl. split; [done|].
  intros ws m tok cnt Hin. destruct (Hnew _ _ _ _ Hin) as (-> & Hpre & Hst & Hobj & Hc).
  repeat split; try done. unfold stored_text. simpl.
  destruct (decide (k = mid)) as [->|Hne].
  - by rewrite lookup_insert_eq.
  - by rewrite lookup_insert_ne.
Qed.

Lemma inv_update_partial b : inv_wp I (update_message (λ m, set_is_partial m b)).
Proof. intros fr H. by rewrite wp_update_message. Qed.

(** Setting the object's text to the current [content]. *)
Lemma inv_read_set_content {B} (x : string → option string) (k : string → M B) :
  (∀ c, inv_wp I (k c)) →
  inv_wp I (c ← read_content ;
            update_message (λ m, set_content m (Some (mkContent (Some c) (x c)))) ;;
            k c).
Proof.
  intros Hk fr H. rewrite wp_bind, wp_read_content.
  destruct (fr_content fr) as [c|] eqn:Hc; [|done].
  rewrite wp_bind, wp_update_message. cbv beta. apply Hk.
  destruct H as (new & Hsent & Hnew). exists new. simpl. split; [done|].
  intros ws m tok cnt Hin. destruct (Hnew _ _ _ _ Hin) as (-> & Hpre & Hst & Hobj & Hcnt).
  rewrite Hc in Hcnt. simpl. rewrite Hc. by repeat split.
Qed.

(** Sending a frame that is not a token. *)
Lemma inv_send_other ws ev :
  (∀ m tok cnt, ev ≠ EvToken m tok cnt) → inv_wp I (send_opt ws ev).
Proof.
  intros Hev fr (new & Hsent & Hnew). rewrite wp_send_opt.
  destruct ws as [s|]; [|by exists new].
  unfold ws_send. case_bool_decide; [by exists new|].
  exists (new ++ [(s, ev)]). simpl. rewrite Hsent, app_assoc. split; [done|].
  intros ws' m tok cnt Hin. apply elem_of_app in Hin as [Hin|Hin]; [exact (Hnew _ _ _ _ Hin)|].
  apply list_elem_of_singleton in Hin. injection Hin as -> Hev'.
  by destruct (Hev m tok cnt).
Qed.

(** The loop body commits the new running total before it sends the
    token frame carrying it. *)
Lemma inv_on_token ws t : inv_wp I (on_token mid ws t).
Proof.
  intros fr H. rewrite wp_on_token, wp_bind, wp_read_content.
  destruct (fr_content fr) as [c|] eqn:Hc; [|done].
  rewrite wp_bind, wp_assign_content, wp_bind, wp_read_content. cbv beta. simpl.
  rewrite wp_bind, wp_update_message, wp_bind, wp_commit. cbv beta. simpl.
  destruct H as (new & Hsent & Hnew).
  (* the state right after [message.content = {"text": content}] *)
  assert (Hmid : ∀ ws' m tok cnt, (ws', EvToken m tok cnt) ∈ new →
            m = mid ∧ (∃ pre, cnt = pre +:+ tok) ∧
            str_prefix cnt (stored_text (fr_world fr) mid) ∧
            str_prefix cnt (c +:+ t)).
  { intros ws' m tok cnt Hin. destruct (Hnew _ _ _ _ Hin) as (-> & ? & ? & _ & Hcc).
    rewrite Hc in Hcc. repeat split; try done. by apply str_prefix_app. }
  destruct (db_available (fr_world fr)).
  2:{ exists new. simpl. split; [done|]. intros ws' m tok cnt Hin.
      destruct (Hmid _ _ _ _ Hin) as (? & ? & ? & ?). by repeat split. }
  rewrite wp_send_opt.
  set (w1 := set_messages (fr_world fr)
               (<[mid := set_content (fr_message fr) (Some (text_only (c +:+ t)))]>
                  (messages (fr_world fr)))).
  assert (Hst : stored_text w1 mid = c +:+ t).
  { unfold stored_text, w1. simpl. by rewrite lookup_insert_eq. }
  destruct ws as [s|].
  2:{ exists new. simpl. split; [done|]. intros ws' m tok cnt Hin.
      destruct (Hmid _ _ _ _ Hin) as (? & ? & ? & ?). rewrite Hst. by repeat split. }
  unfold ws_send. case_bool_decide.
  - exists new. simpl. split; [done|]. intros ws' m tok cnt Hin.
    destruct (Hmid _ _ _ _ Hin) as (? & ? & ? & ?). rewrite Hst. by repeat split.
  - exists (new ++ [(s, EvToken mid t (c +:+ t))]). simpl.
    rewrite Hsent, app_assoc. split; [done|].
    intros ws' m tok cnt Hin. apply elem_of_app in Hin as [Hin|Hin].
    + destruct (Hmid _ _ _ _ Hin) as (? & ? & ? & ?).
      rewrite stored_text_set_sent, Hst. by repeat split.
    + apply list_elem_of_singleton in Hin. injection Hin as -> -> -> ->.
      rewrite stored_text_set_sent, Hst. split; [done|]. split; [by exists c|].
      split; [apply str_prefix_refl|]. split; apply str_prefix_refl.
Qed.

Lemma inv_async_for (sched : nat → EnvOp) i frags err ws :
  inv_wp I (async_for sched i frags err (on_token mid ws)).
Proof.
  revert i. induction frags as [|t rest IH]; intros i; simpl.
  - apply inv_bind; [apply inv_apply_env|].
    intros _. destruct err; [apply inv_throw | apply inv_ret].
  - apply inv_bind; [apply inv_apply_env|]. intros _.
    apply inv_bind; [apply inv_on_token | intros _; apply IH].
Qed.

Lemma inv_registry f :
  (∀ w, messages (f w) = messages w ∧ sent (f w) = sent w) → inv_wp I (world_op f).
Proof. intros Hf. apply inv_world_op. intros w. destruct (Hf w). by split; [|left]. Qed.

Lemma inv_cleanup sk p : inv_wp I (cleanup sk p).
Proof.
  unfold cleanup. apply inv_bind; [apply inv_registry; done|].
  intros _. apply inv_registry. done.
Qed.

Lemma durable_world fr : I fr → tokens_durable_world mid base (fr_world fr).
Proof.
  intros (new & Hs & Hnew). exists new. split; [done|].
  intros ws m tok cnt Hin. destruct (Hnew _ _ _ _ Hin) as (? & ? & ? & _). done.
Qed.

(** Running a program that keeps [I] from a frame that satisfies it. *)
Lemma durable_run_frame {A} (m : M A) fr0 w' r :
  inv_wp I m → I fr0 → run_frame m fr0 = (w', r) → tokens_durable_world mid base w'.
Proof.
  intros Hm H0. revert w' r. apply run_frame_intro.
  eapply wp_mono; [| |by apply Hm]; intros; by apply durable_world.
Qed.

(** [try: body except: h  finally: cleanup; return content] keeps [I]
    once [body] does from the initial frame. *)
Lemma durable_program (body : M unit) (h : Exc → M unit) sk p fr0 :
  wp body (λ _, I) (λ _, I) fr0 → (∀ e, inv_wp I (h e)) →
  wp (try_finally (try_except body h) (cleanup sk p) ≫= λ _, read_content)
     (λ _, I) (λ _, I) fr0.
Proof.
  intros Hb Hh. rewrite wp_bind, wp_try_finally, wp_try_except.
  eapply wp_mono; [| |exact Hb].
  - intros a fr1 H1. eapply wp_mono; [| |apply inv_cleanup; exact H1]; [|done].
    intros ? fr2 H2. by apply inv_read_content.
  - intros e fr1 H1. eapply wp_mono; [| |apply Hh; exact H1].
    + intros a fr2 H2. eapply wp_mono; [| |apply inv_cleanup; exact H2]; [|done].
      intros ? fr3 H3. by apply inv_read_content.
    + intros e' fr2 H2. eapply wp_mono; [| |apply inv_cleanup; exact H2]; done.
Qed.

(** Before [content] is first assigned no token frame has been sent. *)
Lemma durable_assign_unbound c fr :
  I fr → fr_content fr = None → I (mkFrame (fr_world fr) (Some c) (fr_message fr)).
Proof.
  intros (new & Hs & Hnew) Hc. exists new. split; [done|].
  intros ws m tok cnt Hin. destruct (Hnew _ _ _ _ Hin) as (_ & _ & _ & _ & Hf).
  by rewrite Hc in Hf.
Qed.

End Durable.

(** Pick the invariant lemma by the shape of the program. *)
Ltac inv_solve :=
  repeat match goal with
  | |- inv_wp _ (read_content ≫= _) => apply inv_read_set_content
  | |- inv_wp _ (_ ≫= _) => apply inv_bind
  | |- inv_wp _ (try_finally _ _) => apply inv_try_finally
  | |- inv_wp _ (try_except _ _) => apply inv_try_except
  | |- inv_wp _ read_content => apply inv_read_content
  | |- inv_wp _ (commit _) => apply inv_commit
  | |- inv_wp _ (update_message _) => apply inv_update_partial
  | |- inv_wp _ (async_for _ _ _ _ _) => apply inv_async_for
  | |- inv_wp _ (cleanup _ _) => apply inv_cleanup
  | |- inv_wp _ (Run.ret _) => apply inv_ret
  | |- inv_wp _ (Run.throw _) => apply inv_throw
  | |- inv_wp _ (send_opt _ _) => apply inv_send_other; intros ???; discriminate
  | |- inv_wp _ (world_op _) => apply inv_registry; intros ?; split; reflexivity
  | |- ∀ _, _ => intros ?
  end.

Lemma stream_llm_response_durable sched w message_id session_id provider_name
    model_name provider_id src websocket w' r :
  stream_llm_response sched w message_id session_id provider_name model_name
    provider_id src websocket = (w', r) →
  tokens_durable_world (next_message_id w) (sent w) w'.
Proof.
  unfold stream_llm_response. destruct (db_available w); cbn [negb].
  - apply durable_run_frame.
    + inv_solve.
    + exists []. rewrite app_nil_r. split; [done|]. intros ???? Hin. by apply elem_of_nil in Hin.
  - intros [= <- _]. exists []. rewrite app_nil_r. split; [done|].
    intros ???? Hin. by apply elem_of_nil in Hin.
Qed.

Lemma continue_stream_durable sched w message_id provider_name model_name
    provider_id src websocket w' r :
  continue_stream sched w message_id provider_name model_name provider_id
    src websocket = (w', r) →
  tokens_durable_world message_id (sent w) w'.
Proof.
  assert (Hw : tokens_durable_world message_id (sent w) w).
  { exists []. rewrite app_nil_r. split; [done|].
    intros ???? Hin. by apply elem_of_nil in Hin. }
  unfold continue_stream.
  destruct (messages w !! message_id) as [msg|]; [|by intros [= <- _]].
  destruct (is_partial msg); [|by intros [= <- _]].
  revert w' r. apply run_frame_intro.
  eapply wp_mono; [| |apply (durable_program message_id (sent w))];
    [intros; by apply durable_world | intros; by apply durable_world | |
     intros e; inv_solve].
  set (I := tokens_durable message_id (sent w)).
  assert (H0 : I (mkFrame (start_streaming (chat_session_id msg) w) None msg)).
  { exists []. rewrite app_nil_r. split; [done|].
    intros ???? Hin. by apply elem_of_nil in Hin. }
  rewrite wp_bind, wp_world_op, wp_bind, wp_send_opt. cbn [fr_world fr_content fr_message].
  assert (Hrest : ∀ fr, I fr → fr_content fr = None →
    wp (assign_content (text_of (content msg)) ≫= λ _,
        async_for sched 0 (fragments src) (terminal_error src)
          (on_token message_id websocket) ≫= λ _,
        update_message (λ m, set_is_partial m false) ≫= λ _,
        commit message_id ≫= λ _,
        c ← read_content; send_opt websocket (EvStreamComplete message_id c))
       (λ _, I) (λ _, I) fr).
  { intros fr Hfr Hc. rewrite wp_bind, wp_assign_content. cbv beta.
    assert (Hinv : inv_wp I (async_for sched 0 (fragments src) (terminal_error src)
        (on_token message_id websocket) ≫= λ _,
        update_message (λ m, set_is_partial m false) ≫= λ _,
        commit message_id ≫= λ _,
        c ← read_content; send_opt websocket (EvStreamComplete message_id c)))
      by inv_solve.
    apply Hinv. by apply durable_assign_unbound. }
  destruct websocket as [ws|]; [|by apply Hrest].
  unfold ws_send. case_bool_decide; [done|].
  apply Hrest; [|done].
  exists [(ws, EvStreamContinue message_id (text_of (content msg)))]. split; [done|].
  intros ???? Hin. apply list_elem_of_singleton in Hin. discriminate.
Qed.

(** ** Release of the provider client *)

Section Release.

Variable L : list nat.

Abbreviation P := (providers_are L).

Lemma prov_world_op f :
  (∀ w, closed_providers (f w) = closed_providers w) → inv_wp P (world_op f).
Proof.
  intros Hf fr H. rewrite wp_world_op. unfold providers_are in *. simpl. by rewrite Hf.
Qed.

Lemma prov_await_pull (sched : nat → EnvOp) i : inv_wp P (await_pull sched i).
Proof. apply prov_world_op. intros w. apply (apply_env_fields (sched i) w). Qed.

Lemma prov_assign c : inv_wp P (assign_content c).
Proof. intros fr H. by rewrite wp_assign_content. Qed.

Lemma prov_update f : inv_wp P (update_message f).
Proof. intros fr H. by rewrite wp_update_message. Qed.

Lemma prov_commit k : inv_wp P (commit k).
Proof. intros fr H. rewrite wp_commit. by destruct (db_available (fr_world fr)). Qed.

Lemma prov_send ws ev : inv_wp P (send_opt ws ev).
Proof.
  intros fr H. rewrite wp_send_opt. destruct ws as [s|]; [|done].
  unfold ws_send. case_bool_decide; [done|]. unfold providers_are in *. done.
Qed.

Lemma prov_on_token mid ws t : inv_wp P (on_token mid ws t).
Proof.
  unfold on_token.
  apply inv_bind; [apply inv_read_content|]. intros c.
  apply inv_bind; [apply prov_assign|]. intros _.
  apply inv_bind; [apply inv_read_content|]. intros c'.
  apply inv_bind; [apply prov_update|]. intros _.
  apply inv_bind; [apply prov_commit|]. intros _.
  apply prov_send.
Qed.

Lemma prov_async_for (sched : nat → EnvOp) i frags err mid ws :
  inv_wp P (async_for sched i frags err (on_token mid ws)).
Proof.
  revert i. induction frags as [|t rest IH]; intros i; simpl.
  - apply inv_bind; [apply prov_await_pull|].
    intros _. destruct err; [apply inv_throw | apply inv_ret].
  - apply inv_bind; [apply prov_await_pull|]. intros _.
    apply inv_bind; [apply prov_on_token | intros _; apply IH].
Qed.

End Release.

Ltac prov_solve :=
  repeat match goal with
  | |- inv_wp _ (_ ≫= _) => apply inv_bind
  | |- inv_wp _ (try_except _ _) => apply inv_try_except
  | |- inv_wp _ read_content => apply inv_read_content
  | |- inv_wp _ (assign_content _) => apply prov_assign
  | |- inv_wp _ (update_message _) => apply prov_update
  | |- inv_wp _ (commit _) => apply prov_commit
  | |- inv_wp _ (send_opt _ _) => apply prov_send
  | |- inv_wp _ (async_for _ _ _ _ _) => apply prov_async_for
  | |- inv_wp _ (Run.ret _) => apply inv_ret
  | |- inv_wp _ (Run.throw _) => apply inv_throw
  | |- inv_wp _ (world_op _) => apply prov_world_op; intros ?; reflexivity
  | |- ∀ _, _ => intros ?
  end.

(** [try: body except: h  finally: cleanup]: when neither [body] nor [h]
    closes a provider client, the run closes [p] exactly once and leaves
    the session unmarked, whichever way [body] and [h] end. *)
Lemma run_releases_once (body : M unit) (h : Exc → M unit) sk p fr0 w' r :
  inv_wp (providers_are (closed_providers (fr_world fr0))) body →
  (∀ e, inv_wp (providers_are (closed_providers (fr_world fr0))) (h e)) →
  run_frame (try_finally (try_except body h) (cleanup sk p) ≫= λ _, read_content) fr0 = (w', r) →
  closed_providers w' = closed_providers (fr_world fr0) ++ [p] ∧
  sk ∉ streaming_sessions w'.
Proof.
  intros Hb Hh Hrun. apply run_frame_cleanup in Hrun. subst w'.
  pose proof (inv_wp_fst _ (try_except body h) fr0 (inv_try_except _ _ _ Hb Hh) eq_refl) as H.
  unfold providers_are in H. simpl. rewrite H. split; [done | set_solver].
Qed.

Lemma stream_llm_response_releases sched w message_id session_id provider_name
    model_name provider_id src websocket w' r :
  db_available w = true →
  stream_llm_response sched w message_id session_id provider_name model_name
    provider_id src websocket = (w', r) →
  closed_providers w' = closed_providers w ++ [provider_id] ∧
  session_id ∉ streaming_sessions w'.
Proof.
  intros Hdb. unfold stream_llm_response. rewrite Hdb. cbn [negb].
  intros Hrun. apply run_releases_once in Hrun; [exact Hrun | prov_solve | prov_solve].
Qed.

Lemma continue_stream_releases sched w message_id provider_name model_name
    provider_id src websocket msg w' r :
  messages w !! message_id = Some msg → is_partial msg = true →
  continue_stream sched w message_id provider_name model_name provider_id
    src websocket = (w', r) →
  closed_providers w' = closed_providers w ++ [provider_id] ∧
  chat_session_id msg ∉ streaming_sessions w'.
Proof.
  intros Hmsg Hpart. unfold continue_stream. rewrite Hmsg, Hpart.
  intros Hrun. apply run_releases_once in Hrun; [exact Hrun | prov_solve | prov_solve].
Qed.

(** ** The local [content] *)

Lemma on_token_content mid ws t c fr :
  fr_content fr = Some c →
  wp (on_token mid ws t) (λ _ fr', fr_content fr' = Some (c +:+ t))
     (λ _ fr', fr_content fr' = Some (c +:+ t)) fr.
Proof.
  intros Hc. rewrite wp_on_token, wp_bind, wp_read_content, Hc.
  rewrite wp_bind, wp_assign_content, wp_bind, wp_read_content. cbv beta. simpl.
  rewrite wp_bind, wp_update_message, wp_bind, wp_commit. cbv beta. simpl.
  destruct (db_available (fr_world fr)); [|done].
  rewrite wp_send_opt. destruct ws as [s|]; [|done]. simpl.
  by destruct (ws_send _ _ _).
Qed.

(** Whatever the other tasks do, the loop ends with [content] the seed
    followed by every fragment, or raises with the seed followed by the
    fragments pulled so far. *)
Lemma async_for_content sched i frags err mid ws c fr :
  fr_content fr = Some c →
  wp (async_for sched i frags err (on_token mid ws))
     (λ _ fr', fr_content fr' = Some (c +:+ join frags))
     (λ _ fr', ∃ p, p `prefix_of` frags ∧ fr_content fr' = Some (c +:+ join p)) fr.
Proof.
  revert i c fr. induction frags as [|t rest IH]; intros i c fr Hc.
  - rewrite wp_async_for_nil, wp_bind, wp_await_pull. cbv beta.
    destruct err; [rewrite wp_throw | rewrite wp_ret]; simpl.
    + exists []. split; [done|]. simpl. by rewrite str_app_nil_r.
    + simpl. by rewrite str_app_nil_r.
  - rewrite wp_async_for_cons, wp_bind, wp_await_pull. cbv beta. rewrite wp_bind.
    eapply wp_mono; [| | apply (on_token_content mid ws t c); exact Hc]; cbv beta.
    + intros _ fr' Hc'. eapply wp_mono; [| | apply (IH (S i) (c +:+ t) fr' Hc')]; cbv beta.
      * intros _ fr'' H. simpl. by rewrite H, str_app_assoc.
      * intros _ fr'' (p & Hp & H). exists (t :: p). split; [by apply prefix_cons|].
        simpl. by rewrite H, str_app_assoc.
    + intros _ fr' Hc'. exists [t]. split; [apply prefix_cons, prefix_nil|].
      simpl. by rewrite str_app_nil_r.
Qed.

Lemma str_length_app (a b : string) :
  String.length (a +:+ b) = String.length a + String.length b.
Proof. induction a as [|x a IH]; cbn; [done | by rewrite IH]. Qed.

(** [abort_stream] on a streaming session. *)
Lemma abort_stream_streaming s w :
  is_streaming s w = true →
  snd (abort_stream s w) = true ∧
  (s ∉ streaming_sessions (fst (abort_stream s w))) ∧
  messages (fst (abort_stream s w)) = messages w.
Proof.
  intros H. unfold abort_stream. rewrite H. simpl. split; [done|]. split.
  - unfold send_message. destruct (active_connections _ !! s) as [ws|]; [|simpl; set_solver].
    unfold ws_send. case_bool_decide; simpl.
    + unfold disconnect. case_bool_decide; simpl; set_solver.
    + set_solver.
  - apply (send_message_fields s EvStreamAborted (stop_streaming s w)).
Qed.

Lemma disconnect_registry s w :
  active_connections (disconnect s w) = delete s (active_connections w) ∧
  is_streaming s (disconnect s w) = false ∧
  abort_stream s (disconnect s w) = (disconnect s w, false) ∧
  messages (disconnect s w) = messages w.
Proof.
  assert (Hoff : is_streaming s (disconnect s w) = false).
  { unfold is_streaming, disconnect. apply bool_decide_eq_false_2.
    case_bool_decide; simpl; set_solver. }
  split; [|split; [exact Hoff|split]].
  - unfold disconnect. case_bool_decide as Hin; simpl; [done|].
    rewrite delete_id; [done|]. by apply not_elem_of_dom.
  - unfold abort_stream. by rewrite Hoff.
  - apply disconnect_fields.
Qed.


Lemma op_at_benign k op : benign op = true → ∀ j, benign (op_at k op j) = true.
Proof. intros H j. unfold op_at. by destruct (Nat.eqb j k). Qed.

(** * Properties of the streaming coordinator *)

(** ** C1 *)

(** C1, as the code behaves: no start path looks at the streaming marker.
    With session [s] already marked streaming (only a run in progress sets
    the marker), a fresh start for [s] is not rejected: it creates its own
    assistant row, runs to completion and, in its [finally], clears the
    marker of [s]; a resume of a partial row of [s] likewise runs to
    completion and clears the marker. *)
Theorem start_while_streaming_not_rejected sched w s message_id k msg
    provider_name model_name provider_id frags websocket w1 r1 w2 r2 :
  (∀ j, benign (sched j) = true) →
  db_available w = true → ws_live websocket w →
  s ∈ streaming_sessions w →
  messages w !! k = Some msg → is_partial msg = true → chat_session_id msg = s →
  stream_llm_response sched w message_id s provider_name model_name provider_id
    (mkTokenSource frags None) websocket = (w1, r1) →
  continue_stream sched w k provider_name model_name provider_id
    (mkTokenSource frags None) websocket = (w2, r2) →
  (r1 = inr (join frags) ∧
   (∃ m, messages w1 = <[next_message_id w := m]> (messages w) ∧
         chat_session_id m = s ∧ is_partial m = false) ∧
   s ∉ streaming_sessions w1) ∧
  (r2 = inr (text_of (content msg) +:+ join frags) ∧
   (∃ m, messages w2 = <[k := m]> (messages w) ∧ is_partial m = false) ∧
   s ∉ streaming_sessions w2).
Proof.
  intros Hsched Hdb Hws _ Hmsg Hpart Hsess Hrun1 Hrun2.
  destruct (stream_llm_response_benign sched w message_id s provider_name model_name
              provider_id frags None websocket w1 r1 Hsched Hdb Hws Hrun1)
    as ((m & Hrows & _ & Hp & Hs & _) & Hr & _ & Hoff & _).
  destruct (continue_stream_benign sched w k provider_name model_name
              provider_id frags None websocket msg w2 r2 Hsched Hmsg Hpart Hdb Hws Hrun2)
    as ((m' & Hrows' & Hm' & _) & Hr' & _ & Hoff' & _).
  split; [split; [exact Hr|]; split; [by exists m | exact Hoff]|].
  split; [exact Hr'|]. split; [|by rewrite <-Hsess].
  exists m'. split; [exact Hrows'|]. by rewrite Hm'.
Qed.

Lemma start_while_streaming_not_rejected_witness :
  let sched := λ _ : nat, EnvNop in
  let src := mkTokenSource ["lo"] None in
  let '(w1, r1) := stream_llm_response sched w_busy 0 7 "mock" "m" 5 src None in
  let '(w2, r2) := continue_stream sched w_busy 1 "mock" "m" 5 src None in
  (r1 = inr "lo" ∧
   (∃ m, messages w1 = <[100 := m]> (messages w_busy) ∧
         chat_session_id m = 7 ∧ is_partial m = false) ∧
   7 ∉ streaming_sessions w1) ∧
  (r2 = inr "Hello" ∧
   (∃ m, messages w2 = <[1 := m]> (messages w_busy) ∧ is_partial m = false) ∧
   7 ∉ streaming_sessions w2).
Proof.
  intros sched src.
  destruct (stream_llm_response sched w_busy 0 7 "mock" "m" 5 src None) as [w1 r1] eqn:H1.
  destruct (continue_stream sched w_busy 1 "mock" "m" 5 src None) as [w2 r2] eqn:H2.
  assert (H7 : 7 ∈ streaming_sessions w_busy)
    by (unfold w_busy, w_partial, w_demo; simpl; set_solver).
  pose proof (start_while_streaming_not_rejected sched w_busy 7 0 1 partial_hel
                "mock" "m" 5 ["lo"] None w1 r1 w2 r2 (λ _, eq_refl) eq_refl I H7
                eq_refl eq_refl eq_refl H1 H2) as H.
  exact H.
Defined.

(** C1: a second fresh start for session 7 while 7 is marked streaming is
    accepted; it writes a new row 100 and leaves 7 unmarked. *)
Lemma second_start_accepted :
  is_streaming 7 w_busy = true ∧
  let '(w', r) := stream_llm_response (λ _, EnvNop) w_busy 0 7 "mock" "m" 5
                    (mkTokenSource ["Hi"] None) None in
  r = inr "Hi" ∧ messages w_busy !! 100 = None ∧ messages w' !! 100 ≠ None ∧
  is_streaming 7 w' = false.
Proof. vm_compute. repeat split; discriminate. Qed.

(** ** C2 *)

(** C2, a defect: [abort_stream] reports an aborted stream (it returns
    True and sends stream_aborted), but on a streaming session it only
    clears its marker and sends stream_aborted over the session's
    registered connection; nothing reaches the run, which never reads the
    marker. A run with abort
    requests at any of its pulls (a benign schedule) still pulls every
    fragment and ends as if none came: the row holds all the fragments with
    is_partial=false, the result is the full text, and the last frame on
    the run's socket is stream_complete. *)
Theorem abort_does_not_stop_run sched w message_id s provider_name model_name
    provider_id frags websocket w' r :
  (∀ j, benign (sched j) = true) →
  db_available w = true → ws_live websocket w →
  stream_llm_response sched w message_id s provider_name model_name provider_id
    (mkTokenSource frags None) websocket = (w', r) →
  (∀ s0 w0, is_streaming s0 w0 = true →
     snd (abort_stream s0 w0) = true ∧
     (s0 ∉ streaming_sessions (fst (abort_stream s0 w0))) ∧
     messages (fst (abort_stream s0 w0)) = messages w0) ∧
  r = inr (join frags) ∧
  (∃ m, messages w' !! next_message_id w = Some m ∧
        content m = Some (text_only (join frags)) ∧ is_partial m = false) ∧
  (∀ ws, websocket = Some ws →
     ∃ l, sent w' = l ++ [(ws, EvStreamComplete (next_message_id w) (join frags))]).
Proof.
  intros Hsched Hdb Hws Hrun.
  destruct (stream_llm_response_benign sched w message_id s provider_name model_name
              provider_id frags None websocket w' r Hsched Hdb Hws Hrun)
    as ((m & Hrows & Hc & Hp & _) & Hr & Hsent & _).
  split; [intros s0 w0; apply abort_stream_streaming|].
  split; [exact Hr|]. split; [|exact Hsent].
  exists m. by rewrite Hrows, lookup_insert_eq.
Qed.

Lemma abort_does_not_stop_run_witness :
  let sched := op_at 0 (EnvAbort 7) in
  let '(w', r) := stream_llm_response sched w_conn 1 7 "mock" "m" 5
                    (mkTokenSource ["Hel"; "lo"] None) (Some 3) in
  r = inr "Hello" ∧
  (∃ m, messages w' !! 100 = Some m ∧
        content m = Some (text_only "Hello") ∧ is_partial m = false) ∧
  (∃ l, sent w' = l ++ [(3, EvStreamComplete 100 "Hello")]).
Proof.
  intros sched.
  destruct (stream_llm_response sched w_conn 1 7 "mock" "m" 5
              (mkTokenSource ["Hel"; "lo"] None) (Some 3)) as [w' r] eqn:Hrun.
  assert (Hws : ws_live (Some 3) w_conn) by apply not_elem_of_empty.
  pose proof (abort_does_not_stop_run sched w_conn 1 7 "mock" "m" 5 ["Hel"; "lo"]
                (Some 3) w' r (op_at_benign 0 (EnvAbort 7) eq_refl) eq_refl Hws Hrun)
    as (_ & Hr & Hm & Hsent).
  split; [exact Hr|]. split; [exact Hm|]. exact (Hsent 3 eq_refl).
Defined.

(** C2: session 7 is connected through socket 3; its run marks 7, sends
    stream_start, and at the first pull an abort request for 7 finds it
    streaming and sends stream_aborted. The run still pulls "Hel" and "lo"
    and completes with "Hello", is_partial=false. *)
Lemma abort_before_first_pull_ignored :
  let '(w', r) := stream_llm_response (op_at 0 (EnvAbort 7)) w_conn 1 7 "mock" "m" 5
                    (mkTokenSource ["Hel"; "lo"] None) (Some 3) in
  r = inr "Hello" ∧
  sent w' = [(3, EvStreamStart 100); (3, EvStreamAborted);
             (3, EvToken 100 "Hel" "Hel"); (3, EvToken 100 "lo" "Hello");
             (3, EvStreamComplete 100 "Hello")] ∧
  (∃ m, messages w' !! 100 = Some m ∧
        text_of (content m) = "Hello" ∧ is_partial m = false).
Proof. vm_compute. split; [done|]. split; [done|]. by eexists. Qed.

(** ** C3 *)

(** C3: socket 3 goes away at the second pull of a start with fragments
    "Hel", "lo", "!". Sending the token "lo" raises; the run's handler
    stores the error, its own stream_error send raises again, and the run
    fails: the row is finalized with error "websocket is closed" and the
    text "Hello", and "!" is never pulled nor stored. *)
Lemma dead_socket_fails_run :
  let '(w', r) := stream_llm_response (op_at 1 (EnvClientGone 3)) w_demo 1 7 "mock" "m" 5
                    (mkTokenSource ["Hel"; "lo"; "!"] None) (Some 3) in
  r = inl SocketError ∧
  messages w' !! 100 =
    Some (mkMessage 7 (Some 1) "assistant"
            (Some (mkContent (Some "Hello") (Some "websocket is closed")))
            false (Some "m") (Some "mock")) ∧
  sent w' = [(3, EvStreamStart 100); (3, EvToken 100 "Hel" "Hel")].
Proof. vm_compute. repeat split. Qed.

(** ** C4 *)

(** C4: when the token source raises [e] after its fragments, with the
    database up and the socket open: a fresh start finalizes its row with
    the text of the fragments, error [e] and is_partial=false, sends
    stream_error last, clears the session's marker and closes the provider
    client once; a resume does the same on its row, whose text is the
    stored text followed by the fragments. *)
Theorem provider_error_finalizes :
  (∀ sched w message_id s provider_name model_name provider_id frags e
      websocket w' r,
     (∀ j, benign (sched j) = true) →
     db_available w = true → ws_live websocket w →
     stream_llm_response sched w message_id s provider_name model_name provider_id
       (mkTokenSource frags (Some e)) websocket = (w', r) →
     r = inl (ProviderError e) ∧
     (∃ m, messages w' !! next_message_id w = Some m ∧
           content m = Some (mkContent (Some (join frags)) (Some e)) ∧
           is_partial m = false) ∧
     (∀ ws, websocket = Some ws →
        ∃ l, sent w' = l ++ [(ws, EvStreamError (next_message_id w) e (Some (join frags)))]) ∧
     (s ∉ streaming_sessions w') ∧
     closed_providers w' = closed_providers w ++ [provider_id]) ∧
  (∀ sched w k msg provider_name model_name provider_id frags e websocket w' r,
     (∀ j, benign (sched j) = true) →
     messages w !! k = Some msg → is_partial msg = true →
     db_available w = true → ws_live websocket w →
     continue_stream sched w k provider_name model_name provider_id
       (mkTokenSource frags (Some e)) websocket = (w', r) →
     r = inl (ProviderError e) ∧
     (∃ m, messages w' !! k = Some m ∧
           content m = Some (mkContent (Some (text_of (content msg) +:+ join frags)) (Some e)) ∧
           is_partial m = false) ∧
     (∀ ws, websocket = Some ws → ∃ l, sent w' = l ++ [(ws, EvStreamError k e None)]) ∧
     (chat_session_id msg ∉ streaming_sessions w') ∧
     closed_providers w' = closed_providers w ++ [provider_id]).
Proof.
  split.
  - intros sched w message_id s provider_name model_name provider_id frags e
      websocket w' r Hsched Hdb Hws Hrun.
    destruct (stream_llm_response_benign sched w message_id s provider_name model_name
                provider_id frags (Some e) websocket w' r Hsched Hdb Hws Hrun)
      as ((m & Hrows & Hc & Hp & _) & Hr & Hsent & Hoff & Hcp).
    split; [exact Hr|]. split; [|by auto].
    exists m. by rewrite Hrows, lookup_insert_eq.
  - intros sched w k msg provider_name model_name provider_id frags e
      websocket w' r Hsched Hmsg Hpart Hdb Hws Hrun.
    destruct (continue_stream_benign sched w k provider_name model_name
                provider_id frags (Some e) websocket msg w' r Hsched Hmsg Hpart Hdb Hws Hrun)
      as ((m & Hrows & Hm & _ & Hc) & Hr & Hsent & Hoff & Hcp & _).
    split; [exact Hr|]. split; [|by auto].
    exists m. rewrite Hrows, lookup_insert_eq. split; [done|]. split; [by apply Hc|].
    by rewrite Hm.
Qed.

Lemma provider_error_finalizes_witness :
  (let '(w', r) := stream_llm_response (λ _, EnvNop) w_demo 1 7 "mock" "m" 5
                     (mkTokenSource ["Hel"] (Some "timeout")) (Some 3) in
   r = inl (ProviderError "timeout") ∧
   (∃ m, messages w' !! 100 = Some m ∧
         content m = Some (mkContent (Some "Hel") (Some "timeout")) ∧
         is_partial m = false) ∧
   (∃ l, sent w' = l ++ [(3, EvStreamError 100 "timeout" (Some "Hel"))]) ∧
   (7 ∉ streaming_sessions w') ∧ closed_providers w' = [5]) ∧
  (let '(w', r) := continue_stream (λ _, EnvNop) w_partial 1 "mock" "m" 5
                     (mkTokenSource ["lo"] (Some "timeout")) (Some 3) in
   r = inl (ProviderError "timeout") ∧
   (∃ m, messages w' !! 1 = Some m ∧
         content m = Some (mkContent (Some "Hello") (Some "timeout")) ∧
         is_partial m = false) ∧
   (∃ l, sent w' = l ++ [(3, EvStreamError 1 "timeout" None)]) ∧
   (7 ∉ streaming_sessions w') ∧ closed_providers w' = [5]).
Proof.
  destruct provider_error_finalizes as [Hstart Hresume]. split.
  - destruct (stream_llm_response _ _ _ _ _ _ _ _ _) as [w' r] eqn:Hrun.
    assert (Hws : ws_live (Some 3) w_demo) by apply not_elem_of_empty.
    pose proof (Hstart (λ _, EnvNop) w_demo 1 7 "mock" "m" 5 ["Hel"] "timeout" (Some 3) w' r
                  (λ _, eq_refl) eq_refl Hws Hrun) as (Hr & Hm & Hsent & Hoff & Hcp).
    split; [exact Hr|]. split; [exact Hm|]. split; [exact (Hsent 3 eq_refl)|].
    split; [exact Hoff | exact Hcp].
  - destruct (continue_stream _ _ _ _ _ _ _ _) as [w' r] eqn:Hrun.
    assert (Hws : ws_live (Some 3) w_partial)
      by apply not_elem_of_empty.
    pose proof (Hresume (λ _, EnvNop) w_partial 1 partial_hel "mock" "m" 5 ["lo"] "timeout"
                  (Some 3) w' r (λ _, eq_refl) eq_refl eq_refl eq_refl Hws Hrun)
      as (Hr & Hm & Hsent & Hoff & Hcp).
    split; [exact Hr|]. split; [exact Hm|]. split; [exact (Hsent 3 eq_refl)|].
    split; [exact Hoff | exact Hcp].
Defined.

(** ** C5 *)

(** C5: write-before-emit. Each loop step commits the new running total
    before it sends the token frame carrying it, so the invariant "every
    token frame sent so far carries a total ending in its token that is a
    prefix of the stored text" survives every step, whatever fails inside
    it, and every interleaved task (no other task writes rows or sends
    token frames). Hence in the world any run leaves, fresh start or
    resume, with any schedule, source and socket, every token frame the run
    sent is for its row and its fragment is in the row's stored text. *)
Theorem token_persisted_before_sent :
  (∀ mid base ws t, inv_wp (tokens_durable mid base) (on_token mid ws t)) ∧
  (∀ mid base (sched : nat → EnvOp) i,
     inv_wp (tokens_durable mid base) (await_pull sched i)) ∧
  (∀ mid base (sched : nat → EnvOp) i frags err ws,
     inv_wp (tokens_durable mid base) (async_for sched i frags err (on_token mid ws))) ∧
  (∀ sched w message_id s provider_name model_name provider_id src websocket w' r,
     stream_llm_response sched w message_id s provider_name model_name
       provider_id src websocket = (w', r) →
     tokens_durable_world (next_message_id w) (sent w) w') ∧
  (∀ sched w k provider_name model_name provider_id src websocket w' r,
     continue_stream sched w k provider_name model_name provider_id
       src websocket = (w', r) →
     tokens_durable_world k (sent w) w').
Proof.
  split; [intros; apply inv_on_token|].
  split; [intros; apply inv_apply_env|].
  split; [intros; apply inv_async_for|].
  split; [intros until r; apply stream_llm_response_durable|].
  intros until r. apply continue_stream_durable.
Qed.

(** ** C6 *)

Lemma stream_hello_scenario_witness :
  db_available w_demo = true ∧ (3 ∉ closed_sockets w_demo) ∧
  let '(w', r) := stream_llm_response (λ _, EnvNop) w_demo 1 7 "mock" "m" 5
                    (mkTokenSource ["Hel"; "lo"] None) (Some 3) in
  r = inr "Hello" ∧
  sent w' = [(3, EvStreamStart 100); (3, EvToken 100 "Hel" "Hel");
             (3, EvToken 100 "lo" "Hello"); (3, EvStreamComplete 100 "Hello")] ∧
  (∃ m, messages w' !! 100 = Some m ∧
        content m = Some (text_only "Hello") ∧ is_partial m = false) ∧
  7 ∉ streaming_sessions w'.
Proof.
  assert (Hws : 3 ∉ closed_sockets w_demo) by apply not_elem_of_empty.
  split; [reflexivity|]. split; [exact Hws|].
  destruct (stream_llm_response _ _ _ _ _ _ _ _ _) as [w' r] eqn:Hrun.
  pose proof (stream_hello_scenario w_demo 1 7 3 5 "mock" "m" w' r eq_refl Hws Hrun) as H.
  exact H.
Defined.

(** ** C7 *)

Lemma continue_extends_partial_witness :
  let '(w', r) := continue_stream (λ _, EnvNop) w_partial 1 "mock" "m" 5
                    (mkTokenSource ["lo"] None) (Some 3) in
  r = inr "Hello" ∧
  (∃ m', messages w' !! 1 = Some m' ∧ text_of (content m') = "Hello" ∧
         m' = set_is_partial (set_content partial_hel (content m')) false) ∧
  dom (messages w') = dom (messages w_partial) ∧
  next_message_id w' = next_message_id w_partial.
Proof.
  destruct (continue_stream _ _ _ _ _ _ _ _) as [w' r] eqn:Hrun.
  assert (Hws : ws_live (Some 3) w_partial)
    by apply not_elem_of_empty.
  pose proof (continue_extends_partial (λ _, EnvNop) w_partial 1 "mock" "m" 5 ["lo"] (Some 3)
                partial_hel w' r (λ _, eq_refl) eq_refl eq_refl eq_refl Hws Hrun) as H.
  exact H.
Defined.

(** ** C8 *)

(** C8: [get_provider] opens the provider client before the assistant row
    is created and committed, outside the [try]. When that commit fails the
    run raises before its [finally] exists: the client is never closed. *)
Lemma provider_leaked_when_db_down :
  let w0 := set_db_available w_demo false in
  let '(w', r) := stream_llm_response (λ _, EnvNop) w0 1 7 "mock" "m" 5
                    (mkTokenSource ["Hi"] None) (Some 3) in
  r = inl DbError ∧ closed_providers w' = [] ∧ w' = w0.
Proof. vm_compute. repeat split. Qed.

(** Once a run is inside its [try], it closes its provider client exactly
    once and clears its session's marker, however the body ends: normal
    end, provider error, closed socket, database failure or an unbound
    [content]. *)
Theorem provider_released_once :
  (∀ sched w message_id s provider_name model_name provider_id src websocket w' r,
     db_available w = true →
     stream_llm_response sched w message_id s provider_name model_name
       provider_id src websocket = (w', r) →
     closed_providers w' = closed_providers w ++ [provider_id] ∧
     s ∉ streaming_sessions w') ∧
  (∀ sched w k msg provider_name model_name provider_id src websocket w' r,
     messages w !! k = Some msg → is_partial msg = true →
     continue_stream sched w k provider_name model_name provider_id
       src websocket = (w', r) →
     closed_providers w' = closed_providers w ++ [provider_id] ∧
     chat_session_id msg ∉ streaming_sessions w').
Proof.
  split.
  - intros until r. apply stream_llm_response_releases.
  - intros until r. apply continue_stream_releases.
Qed.

(** ** C9 *)

(** C9, as the code behaves: [disconnect] removes the session's connection
    and also clears its streaming marker, so the registry stops reporting
    the session as streaming and a later [abort_stream] finds nothing and
    returns False; no row is touched. The run itself holds its own socket
    and keeps going: with disconnects (and aborts) at any of its pulls it
    still stores every fragment and completes. *)
Theorem disconnect_clears_streaming_marker sched w message_id s provider_name
    model_name provider_id frags websocket w' r :
  (∀ j, benign (sched j) = true) →
  db_available w = true → ws_live websocket w →
  stream_llm_response sched w message_id s provider_name model_name provider_id
    (mkTokenSource frags None) websocket = (w', r) →
  (∀ s0 w0,
     active_connections (disconnect s0 w0) = delete s0 (active_connections w0) ∧
     is_streaming s0 (disconnect s0 w0) = false ∧
     abort_stream s0 (disconnect s0 w0) = (disconnect s0 w0, false) ∧
     messages (disconnect s0 w0) = messages w0) ∧
  r = inr (join frags) ∧
  (∃ m, messages w' !! next_message_id w = Some m ∧
        content m = Some (text_only (join frags)) ∧ is_partial m = false).
Proof.
  intros Hsched Hdb Hws Hrun.
  destruct (stream_llm_response_benign sched w message_id s provider_name model_name
              provider_id frags None websocket w' r Hsched Hdb Hws Hrun)
    as ((m & Hrows & Hc & Hp & _) & Hr & _).
  split; [intros s0 w0; apply disconnect_registry|].
  split; [exact Hr|]. exists m. by rewrite Hrows, lookup_insert_eq.
Qed.

Lemma disconnect_clears_streaming_marker_witness :
  let sched := op_at 0 (EnvDisconnect 7) in
  let '(w', r) := stream_llm_response sched w_conn 1 7 "mock" "m" 5
                    (mkTokenSource ["Hel"; "lo"] None) (Some 3) in
  r = inr "Hello" ∧
  (∃ m, messages w' !! 100 = Some m ∧
        content m = Some (text_only "Hello") ∧ is_partial m = false).
Proof.
  intros sched.
  destruct (stream_llm_response sched w_conn 1 7 "mock" "m" 5
              (mkTokenSource ["Hel"; "lo"] None) (Some 3)) as [w' r] eqn:Hrun.
  assert (Hws : ws_live (Some 3) w_conn) by apply not_elem_of_empty.
  pose proof (disconnect_clears_streaming_marker sched w_conn 1 7 "mock" "m" 5 ["Hel"; "lo"]
                (Some 3) w' r (op_at_benign 0 (EnvDisconnect 7) eq_refl) eq_refl Hws Hrun)
    as (_ & Hr & Hm).
  split; [exact Hr | exact Hm].
Defined.

(** C9: session 7 is connected and streaming; after [disconnect 7] the
    registry no longer reports it and an abort request returns False. *)
Lemma abort_after_disconnect_finds_nothing :
  let w0 := start_streaming 7 w_conn in
  is_streaming 7 w0 = true ∧
  is_streaming 7 (disconnect 7 w0) = false ∧
  snd (abort_stream 7 (disconnect 7 w0)) = false.
Proof. vm_compute. repeat split. Qed.

(** ** C10 *)

(** C10: [content] only grows. A loop step appends its fragment to
    [content] (also when its commit or send then raises); the whole
    [async for], under any schedule, ends with the seed followed by every
    fragment, or raises with the seed followed by the fragments pulled so
    far; so its length never decreases. *)
Theorem accumulated_text_only_grows :
  (∀ mid ws t c fr, fr_content fr = Some c →
     wp (on_token mid ws t) (λ _ fr', fr_content fr' = Some (c +:+ t))
        (λ _ fr', fr_content fr' = Some (c +:+ t)) fr) ∧
  (∀ (sched : nat → EnvOp) i frags err mid ws c fr, fr_content fr = Some c →
     wp (async_for sched i frags err (on_token mid ws))
        (λ _ fr', fr_content fr' = Some (c +:+ join frags))
        (λ _ fr', ∃ p, p `prefix_of` frags ∧ fr_content fr' = Some (c +:+ join p)) fr) ∧
  (∀ c x, String.length c ≤ String.length (c +:+ x)).
Proof.
  split; [intros; by apply on_token_content|].
  split; [intros; by apply async_for_content|].
  intros c x. rewrite str_length_app. lia.
Qed.

(** * Further properties of the surrounding code *)

(** ** The stream manager's registry *)

Lemma send_message_cases s ev w :
  send_message s ev w =
  match active_connections w !! s with
  | Some ws => if bool_decide (ws ∈ closed_sockets w) then disconnect s w
               else set_sent w (sent w ++ [(ws, ev)])
  | None => w
  end.
Proof. unfold send_message, ws_send. destruct (_ !! s); [|done]. by case_bool_decide. Qed.

Lemma disconnect_lookup s w k :
  active_connections (disconnect s w) !! k =
  if bool_decide (k = s) then None else active_connections w !! k.
Proof.
  unfold disconnect. case_bool_decide as Hin; simpl; case_bool_decide; subst.
  - by rewrite lookup_delete_eq.
  - by rewrite lookup_delete_ne.
  - by apply not_elem_of_dom.
  - done.
Qed.

Lemma disconnect_streaming s w k :
  k ∈ streaming_sessions (disconnect s w) ↔ k ∈ streaming_sessions w ∧ k ≠ s.
Proof. unfold disconnect. case_bool_decide; simpl; set_solver. Qed.

Lemma send_message_lookup s ev w k :
  active_connections (send_message s ev w) !! k =
  if bool_decide (k = s) && dead_session w s then None else active_connections w !! k.
Proof.
  rewrite send_message_cases. unfold dead_session.
  destruct (active_connections w !! s) as [ws|] eqn:Hs.
  - case_bool_decide as Hd.
    + rewrite disconnect_lookup. by destruct (bool_decide (k = s)).
    + simpl. by destruct (bool_decide (k = s)).
  - by destruct (bool_decide (k = s)).
Qed.

Lemma send_message_streaming s ev w k :
  k ∈ streaming_sessions (send_message s ev w) ↔
  k ∈ streaming_sessions w ∧ ¬ (k = s ∧ dead_session w s = true).
Proof.
  rewrite send_message_cases. unfold dead_session.
  destruct (active_connections w !! s) as [ws|].
  - case_bool_decide as Hd.
    + rewrite disconnect_streaming. naive_solver.
    + simpl. naive_solver.
  - naive_solver.
Qed.

Lemma send_message_sent s ev w :
  sent (send_message s ev w) = sent w ++ option_list (delivery w ev s).
Proof.
  rewrite send_message_cases. unfold delivery.
  destruct (active_connections w !! s) as [ws|]; [|by rewrite app_nil_r].
  case_bool_decide; simpl; [|done].
  rewrite app_nil_r. apply (disconnect_fields s w).
Qed.

Lemma send_message_closed s ev w :
  closed_sockets (send_message s ev w) = closed_sockets w.
Proof. apply (send_message_fields s ev w). Qed.

Lemma send_message_dead s ev w k :
  dead_session (send_message s ev w) k = dead_session w k && negb (bool_decide (k = s)).
Proof.
  unfold dead_session at 1. rewrite send_message_lookup, send_message_closed.
  unfold dead_session. case_bool_decide; subst; simpl.
  - destruct (active_connections w !! s); simpl; [|done].
    case_bool_decide; simpl; [done|]. by case_bool_decide.
  - rewrite andb_true_r. done.
Qed.

Lemma send_message_delivery s ev ev' w k :
  delivery (send_message s ev w) ev' k = delivery w ev' k.
Proof.
  unfold delivery. rewrite send_message_lookup, send_message_closed.
  unfold dead_session. case_bool_decide; subst; simpl; [|done].
  destruct (active_connections w !! s); simpl; [|done].
  case_bool_decide; simpl; [done|]. by case_bool_decide.
Qed.

Lemma omap_ext_eq {A B} (f g : A → option B) (l : list A) :
  (∀ x, f x = g x) → omap f l = omap g l.
Proof.
  intros H. induction l as [|x l IH]; simpl; [done|].
  rewrite H. destruct (g x); [f_equal|]; exact IH.
Qed.

Lemma broadcast_spec keys ev w :
  sent (broadcast keys ev w) = sent w ++ omap (delivery w ev) keys ∧
  (∀ k, active_connections (broadcast keys ev w) !! k =
        if bool_decide (k ∈ keys) && dead_session w k then None
        else active_connections w !! k) ∧
  (∀ k, k ∈ streaming_sessions (broadcast keys ev w) ↔
        k ∈ streaming_sessions w ∧ ¬ (k ∈ keys ∧ dead_session w k = true)) ∧
  messages (broadcast keys ev w) = messages w ∧
  closed_sockets (broadcast keys ev w) = closed_sockets w ∧
  db_available (broadcast keys ev w) = db_available w ∧
  closed_providers (broadcast keys ev w) = closed_providers w.
Proof.
  revert w. induction keys as [|s rest IH]; intros w; simpl.
  - rewrite app_nil_r. split; [done|]. split; [|set_solver].
    intros k. done.
  - destruct (IH (send_message s ev w)) as (Hsent & Hac & Hss & Hm & Hcs & Hdb & Hcp).
    destruct (send_message_fields s ev w) as (Hm1 & Hcp1 & _ & _ & Hdb1 & Hcs1).
    split; [|split; [|split; [|split; [|split; [|split]]]]].
    + rewrite Hsent, send_message_sent, <-app_assoc. f_equal.
      rewrite (omap_ext_eq _ (delivery w ev)) by (intros; apply send_message_delivery).
      by destruct (delivery w ev s).
    + intros k. rewrite Hac, send_message_dead, send_message_lookup.
      destruct (decide (k = s)) as [->|Hne].
      * rewrite (bool_decide_eq_true_2 (s = s)) by done.
        rewrite (bool_decide_eq_true_2 (s ∈ s :: rest)) by set_solver.
        simpl. rewrite !andb_false_r. by destruct (dead_session w s).
      * rewrite (bool_decide_eq_false_2 (k = s)) by done. simpl.
        rewrite andb_true_r.
        destruct (decide (k ∈ rest)).
        -- rewrite !bool_decide_eq_true_2 by set_solver. done.
        -- rewrite !bool_decide_eq_false_2 by set_solver. done.
    + intros k. rewrite Hss, send_message_streaming, send_message_dead.
      destruct (decide (k = s)) as [->|Hne].
      * rewrite (bool_decide_eq_true_2 (s = s)) by done. simpl.
        rewrite andb_false_r.
        destruct (dead_session w s); set_solver.
      * rewrite (bool_decide_eq_false_2 (k = s)) by done. simpl.
        rewrite andb_true_r. destruct (dead_session w k); set_solver.
    + by rewrite Hm, Hm1.
    + by rewrite Hcs, Hcs1.
    + by rewrite Hdb, Hdb1.
    + by rewrite Hcp, Hcp1.
Qed.

Lemma abort_stream_cases s w :
  abort_stream s w =
  if is_streaming s w then (send_message s EvStreamAborted (stop_streaming s w), true)
  else (w, false).
Proof. done. Qed.

(** What [abort_stream] does to the registry and the frames. *)
Lemma abort_stream_spec s w :
  snd (abort_stream s w) = is_streaming s w ∧
  (s ∉ streaming_sessions (fst (abort_stream s w))) ∧
  (∀ k, k ≠ s → (k ∈ streaming_sessions (fst (abort_stream s w)) ↔
                 k ∈ streaming_sessions w)) ∧
  sent (fst (abort_stream s w)) =
    sent w ++ (if is_streaming s w then option_list (delivery w EvStreamAborted s) else []) ∧
  active_connections (fst (abort_stream s w)) =
    (if is_streaming s w && dead_session w s
     then delete s (active_connections w) else active_connections w) ∧
  messages (fst (abort_stream s w)) = messages w.
Proof.
  rewrite abort_stream_cases. unfold is_streaming.
  case_bool_decide as Hst; simpl.
  - split; [done|]. split.
    { rewrite send_message_streaming. simpl. set_solver. }
    split.
    { intros k Hk. rewrite send_message_streaming. simpl. set_solver. }
    split.
    { rewrite send_message_sent. done. }
    split.
    + apply map_eq. intros k. rewrite send_message_lookup. simpl.
      unfold dead_session. simpl.
      destruct (active_connections w !! s) as [ws|] eqn:Hs; simpl.
      * destruct (bool_decide (ws ∈ closed_sockets w)); simpl.
        -- destruct (decide (k = s)) as [->|Hne].
           ++ rewrite bool_decide_eq_true_2 by done. simpl. by rewrite lookup_delete_eq.
           ++ rewrite bool_decide_eq_false_2 by done. simpl. by rewrite lookup_delete_ne.
        -- by rewrite andb_false_r.
      * by rewrite andb_false_r.
    + apply (send_message_fields s EvStreamAborted (stop_streaming s w)).
  - split; [done|]. split; [done|]. split; [done|].
    split; [by rewrite app_nil_r|]. done.
Qed.

(** ** Provider parsing *)

Lemma prefix_data p : String.prefix "data: " ("data: " +:+ p) = true.
Proof. by destruct p. Qed.

Lemma substring_all (p : string) : String.substring 0 (String.length p) p = p.
Proof. induction p as [|a p IH]; simpl; [done|]. by rewrite IH. Qed.

Lemma data_payload_data p : data_payload ("data: " +:+ p) = p.
Proof.
  unfold data_payload. cbn -[String.substring].
  rewrite Nat.sub_0_r. cbn. apply substring_all.
Qed.

(** A line the OpenAI loop skips can be dropped from anywhere in the
    response. *)
Lemma openai_lines_drop loads l1 line l2 :
  (∀ rest, openai_lines loads (line :: rest) = openai_lines loads rest) →
  openai_lines loads (l1 ++ line :: l2) = openai_lines loads (l1 ++ l2).
Proof.
  intros Hskip. induction l1 as [|x l1 IH]; simpl; [apply Hskip|].
  destruct (String.prefix "data: " x); [|exact IH].
  destruct (String.eqb (data_payload x) "[DONE]"); [done|].
  destruct (loads (data_payload x)) as [data|]; [|exact IH].
  destruct (openai_chunk data) as [e|[v|]]; [done | by rewrite IH | exact IH].
Qed.

Lemma anthropic_lines_drop loads l1 line l2 :
  (∀ rest, anthropic_lines loads (line :: rest) = anthropic_lines loads rest) →
  anthropic_lines loads (l1 ++ line :: l2) = anthropic_lines loads (l1 ++ l2).
Proof.
  intros Hskip. induction l1 as [|x l1 IH]; simpl; [apply Hskip|].
  destruct (String.prefix "data: " x); [|exact IH].
  destruct (loads (data_payload x)) as [data|]; [|exact IH].
  destruct (anthropic_event data) as [e|[v|]]; [done | by rewrite IH | exact IH].
Qed.

Lemma anthropic_split_spec sys fm msgs :
  anthropic_split sys fm msgs =
  (match last (List.filter (fun m => String.eqb (turn_role m) "system") msgs) with
   | Some m => turn_content m
   | None => sys
   end,
   fm ++ List.filter (fun m => negb (String.eqb (turn_role m) "system")) msgs).
Proof.
  revert sys fm. induction msgs as [|m rest IH]; intros sys fm; simpl.
  - by rewrite app_nil_r.
  - destruct (String.eqb (turn_role m) "system"); simpl; rewrite IH.
    + rewrite last_cons. by destruct (last _).
    + by rewrite <-app_assoc.
Qed.

Lemma build_conversation_app pre post :
  build_conversation (pre ++ post) =
  (c1 ← build_conversation pre; c2 ← build_conversation post; inr (c1 ++ c2)).
Proof.
  induction pre as [|msg pre IH]; simpl.
  - by destruct (build_conversation post).
  - rewrite IH. destruct (conversation_entry msg) as [e|x]; simpl; [done|].
    destruct (build_conversation pre) as [e|c1]; simpl; [done|].
    destruct (build_conversation post) as [e|c2]; simpl; [done|].
    by rewrite app_assoc.
Qed.

(** ** Further properties *)

(** X2: [broadcast] sends the frame once to each listed session whose
    socket is open, in snapshot order, and nothing else; a failed send
    does not stop the later ones, and no row changes. *)
Theorem broadcast_delivers keys ev w :
  sent (broadcast keys ev w) = sent w ++ omap (delivery w ev) keys ∧
  messages (broadcast keys ev w) = messages w.
Proof.
  destruct (broadcast_spec keys ev w) as (Hs & _ & _ & Hm & _). done.
Qed.

(** X3: a [broadcast] over the full snapshot of the registry drops exactly
    the sessions whose socket is closed, and clears their streaming
    markers; the other sessions keep their socket and marker. *)
Theorem broadcast_prunes_dead keys ev w :
  (∀ s, s ∈ dom (active_connections w) → s ∈ keys) →
  (∀ s ws, active_connections (broadcast keys ev w) !! s = Some ws ↔
           active_connections w !! s = Some ws ∧ ws ∉ closed_sockets w) ∧
  (∀ s, s ∈ streaming_sessions (broadcast keys ev w) ↔
        s ∈ streaming_sessions w ∧ dead_session w s = false).
Proof.
  intros Hkeys. destruct (broadcast_spec keys ev w) as (_ & Hac & Hss & _).
  split.
  - intros s ws. rewrite Hac. unfold dead_session.
    destruct (active_connections w !! s) as [ws0|] eqn:Hs.
    + rewrite (bool_decide_eq_true_2 (s ∈ keys))
        by (apply Hkeys, elem_of_dom; by eexists).
      simpl. case_bool_decide as Hd; split.
      * done.
      * intros [[= <-] Hn]. done.
      * intros [= <-]. done.
      * by intros [-> _].
    + destruct (bool_decide (s ∈ keys)); simpl; split; try done; by intros [? _].
  - intros s. rewrite Hss. unfold dead_session.
    destruct (active_connections w !! s) as [ws0|] eqn:Hs.
    + assert (s ∈ keys) by (apply Hkeys, elem_of_dom; by eexists).
      destruct (bool_decide _); naive_solver.
    + naive_solver.
Qed.

Lemma broadcast_prunes_dead_witness :
  (∀ s, s ∈ dom (active_connections (set_closed_sockets w_conn {[3]})) → s ∈ [7]) ∧
  (∀ s ws, active_connections (broadcast [7] EvStreamAborted (set_closed_sockets w_conn {[3]})) !! s = Some ws ↔
           active_connections (set_closed_sockets w_conn {[3]}) !! s = Some ws ∧
           ws ∉ closed_sockets (set_closed_sockets w_conn {[3]})) ∧
  (∀ s, s ∈ streaming_sessions (broadcast [7] EvStreamAborted (set_closed_sockets w_conn {[3]})) ↔
        s ∈ streaming_sessions (set_closed_sockets w_conn {[3]}) ∧
        dead_session (set_closed_sockets w_conn {[3]}) s = false).
Proof.
  assert (H : ∀ s, s ∈ dom (active_connections (set_closed_sockets w_conn {[3]})) → s ∈ [7]).
  { intros s Hs. unfold w_conn, connect, w_demo in Hs. simpl in Hs.
    rewrite dom_insert_L, dom_empty_L in Hs. set_solver. }
  split; [exact H|].
  exact (broadcast_prunes_dead [7] EvStreamAborted (set_closed_sockets w_conn {[3]}) H).
Defined.

(** X4: [disconnect] undoes [connect]: connecting a socket for a session
    and then disconnecting the session leaves the same registry as
    disconnecting it directly. *)
Theorem disconnect_after_connect ws s w :
  disconnect s (connect ws s w) = disconnect s w.
Proof.
  unfold disconnect, connect. simpl.
  rewrite bool_decide_eq_true_2 by (rewrite dom_insert_L; set_solver).
  simpl. rewrite delete_insert_eq.
  case_bool_decide as Hin; [done|].
  rewrite delete_id by (by apply not_elem_of_dom).
  by destruct w.
Qed.

(** X5: [abort_stream] returns whether the session was marked streaming.
    It clears only that session's marker, and sends stream_aborted only to
    the session's socket when that socket is open. When the socket is
    closed, it drops the session's connection instead, and still returns
    True. No row changes. *)
Theorem abort_stream_effect s w :
  snd (abort_stream s w) = is_streaming s w ∧
  (s ∉ streaming_sessions (fst (abort_stream s w))) ∧
  (∀ k, k ≠ s → (k ∈ streaming_sessions (fst (abort_stream s w)) ↔
                 k ∈ streaming_sessions w)) ∧
  sent (fst (abort_stream s w)) =
    sent w ++ (if is_streaming s w then option_list (delivery w EvStreamAborted s) else []) ∧
  active_connections (fst (abort_stream s w)) =
    (if is_streaming s w && dead_session w s
     then delete s (active_connections w) else active_connections w) ∧
  messages (fst (abort_stream s w)) = messages w.
Proof. exact (abort_stream_spec s w). Qed.

(** X6: a second [abort_stream] for the same session finds no marker,
    returns False and changes nothing. *)
Theorem abort_stream_idempotent s w :
  abort_stream s (fst (abort_stream s w)) = (fst (abort_stream s w), false).
Proof.
  destruct (abort_stream_spec s w) as (_ & Hnot & _).
  rewrite abort_stream_cases. unfold is_streaming.
  by rewrite bool_decide_eq_false_2.
Qed.

(** X10: the providers only read lines starting with "data: "; any other
    line (an "event:" line, a comment, a blank line) has no effect. *)
Theorem provider_reads_data_lines_only loads lines :
  openai_lines loads lines =
    openai_lines loads (List.filter (String.prefix "data: ") lines) ∧
  anthropic_lines loads lines =
    anthropic_lines loads (List.filter (String.prefix "data: ") lines).
Proof.
  induction lines as [|l rest [IH1 IH2]]; [done|]. simpl.
  destruct (String.prefix "data: " l) eqn:Hp; simpl; rewrite ?Hp; [|done].
  split.
  - destruct (String.eqb (data_payload l) "[DONE]"); [done|].
    destruct (loads (data_payload l)) as [data|]; [|done].
    destruct (openai_chunk data) as [e|[v|]]; [done | by rewrite IH1 | done].
  - destruct (loads (data_payload l)) as [data|]; [|done].
    destruct (anthropic_event data) as [e|[v|]]; [done | by rewrite IH2 | done].
Qed.

(** X11: a data line whose payload is not valid JSON is skipped, and
    reading goes on with the next line (for OpenAI and Mistral, unless the
    payload is "[DONE]"). *)
Theorem malformed_data_line_skipped loads p l1 l2 :
  loads p = None → p ≠ "[DONE]" →
  openai_lines loads (l1 ++ ("data: " +:+ p) :: l2) = openai_lines loads (l1 ++ l2) ∧
  anthropic_lines loads (l1 ++ ("data: " +:+ p) :: l2) = anthropic_lines loads (l1 ++ l2).
Proof.
  intros Hl Hd. split.
  - apply openai_lines_drop. intros rest. cbn -[String.prefix data_payload String.append].
    rewrite prefix_data, data_payload_data.
    destruct (String.eqb_spec p "[DONE]"); [done|]. by rewrite Hl.
  - apply anthropic_lines_drop. intros rest. cbn -[String.prefix data_payload String.append].
    rewrite prefix_data, data_payload_data. by rewrite Hl.
Qed.

Lemma malformed_data_line_skipped_witness :
  (λ _ : string, @None Json) "{" = None ∧ "{" ≠ "[DONE]" ∧
  openai_lines (λ _, None) ([] ++ ("data: " +:+ "{") :: []) =
    openai_lines (λ _, None) ([] ++ []) ∧
  anthropic_lines (λ _, None) ([] ++ ("data: " +:+ "{") :: []) =
    anthropic_lines (λ _, None) ([] ++ []).
Proof.
  assert (H1 : (λ _ : string, @None Json) "{" = None) by reflexivity.
  assert (H2 : "{" ≠ "[DONE]") by discriminate.
  split; [exact H1|]. split; [exact H2|].
  exact (malformed_data_line_skipped (λ _, None) "{" [] [] H1 H2).
Defined.

(** X12: "data: [DONE]" ends the OpenAI and Mistral streams: no later line
    is read.  The Anthropic provider has no such check: json.loads rejects
    "[DONE]", so the line is skipped and reading goes on. *)
Theorem done_line_handling loads l1 l2 :
  loads "[DONE]" = None →
  openai_lines loads (l1 ++ "data: [DONE]" :: l2) = openai_lines loads l1 ∧
  anthropic_lines loads (l1 ++ "data: [DONE]" :: l2) = anthropic_lines loads (l1 ++ l2).
Proof.
  intros Hl. split.
  - induction l1 as [|x l1 IH]; [done|]. simpl.
    destruct (String.prefix "data: " x); [|exact IH].
    destruct (String.eqb (data_payload x) "[DONE]"); [done|].
    destruct (loads (data_payload x)) as [data|]; [|exact IH].
    destruct (openai_chunk data) as [e|[v|]]; [done | by rewrite IH | exact IH].
  - apply anthropic_lines_drop. intros rest. cbn -[data_payload].
    change (data_payload "data: [DONE]") with "[DONE]". by rewrite Hl.
Qed.

Lemma done_line_handling_witness :
  (λ _ : string, @None Json) "[DONE]" = None ∧
  openai_lines (λ _, None) (["x"] ++ "data: [DONE]" :: ["data: y"]) =
    openai_lines (λ _, None) ["x"] ∧
  anthropic_lines (λ _, None) (["x"] ++ "data: [DONE]" :: ["data: y"]) =
    anthropic_lines (λ _, None) (["x"] ++ ["data: y"]).
Proof.
  assert (H : (λ _ : string, @None Json) "[DONE]" = None) by reflexivity.
  split; [exact H|].
  exact (done_line_handling (λ _, None) ["x"] ["data: y"] H).
Defined.

(** X13: the Anthropic provider ignores every event other than
    content_block_delta, an "error" event included: a response made only
    of such events yields nothing and ends normally, so a run over it
    stores an empty, complete message with no error and sends
    stream_complete. *)
Theorem anthropic_error_event_completes loads lines sched w message_id
    session_id model_name provider_id websocket :
  (∀ line, line ∈ lines → String.prefix "data: " line = true →
     ∃ kvs, loads (data_payload line) = Some (JObj kvs) ∧
            obj_lookup "type" kvs ≠ Some (JStr "content_block_delta")) →
  (∀ j, benign (sched j) = true) → db_available w = true → ws_live websocket w →
  ∃ src, source_of (anthropic_lines loads lines) = Some src ∧
  ∀ w' r, stream_llm_response sched w message_id session_id "anthropic"
            model_name provider_id src websocket = (w', r) →
  r = inr "" ∧
  (∃ m, messages w' !! next_message_id w = Some m ∧
        content m = Some (text_only "") ∧ is_partial m = false) ∧
  (∀ ws, websocket = Some ws →
         ∃ l, sent w' = l ++ [(ws, EvStreamComplete (next_message_id w) "")]).
Proof.
  intros Hlines Hsched Hdb Hws.
  assert (Hnil : anthropic_lines loads lines = ([], None)).
  { induction lines as [|l rest IH]; [done|]. simpl.
    destruct (String.prefix "data: " l) eqn:Hp; [|apply IH; set_solver].
    destruct (Hlines l ltac:(set_solver) Hp) as (kvs & Hk & Hty).
    rewrite Hk. unfold anthropic_event. simpl.
    assert (Hn : json_is_str (default JNull (obj_lookup "type" kvs)) "content_block_delta" = false).
    { destruct (obj_lookup "type" kvs) as [[]|]; simpl; try done.
      destruct (String.eqb_spec s "content_block_delta"); [congruence | done]. }
    rewrite Hn. simpl. apply IH. set_solver. }
  rewrite Hnil. eexists. split; [reflexivity|].
  intros w' r Hrun.
  destruct (stream_llm_response_benign sched w message_id session_id "anthropic"
              model_name provider_id [] None websocket w' r Hsched Hdb Hws Hrun)
    as ((m & Hrows & Hc & Hp & _) & Hr & Hsent & _).
  split; [exact Hr|]. split.
  - exists m. rewrite Hrows, lookup_insert_eq. done.
  - exact Hsent.
Qed.

Lemma anthropic_error_event_completes_witness :
  ∃ src, source_of (anthropic_lines
                      (λ s, if String.eqb s "E" then Some (JObj [("type", JStr "error")]) else None)
                      ["event: error"; "data: E"]) = Some src ∧
  ∀ w' r, stream_llm_response (λ _, EnvNop) w_conn 1 7 "anthropic" "m" 5 src (Some 3) = (w', r) →
  r = inr "" ∧
  (∃ m, messages w' !! next_message_id w_conn = Some m ∧
        content m = Some (text_only "") ∧ is_partial m = false) ∧
  (∀ ws, Some 3 = Some ws →
         ∃ l, sent w' = l ++ [(ws, EvStreamComplete (next_message_id w_conn) "")]).
Proof.
  assert (H1 : ∀ line, line ∈ ["event: error"; "data: E"] → String.prefix "data: " line = true →
     ∃ kvs, (λ s, if String.eqb s "E" then Some (JObj [("type", JStr "error")]) else None)
              (data_payload line) = Some (JObj kvs) ∧
            obj_lookup "type" kvs ≠ Some (JStr "content_block_delta")).
  { intros line Hin Hp. rewrite elem_of_cons, list_elem_of_singleton in Hin.
    destruct Hin as [->| ->]; [discriminate|].
    eexists. split; [reflexivity | discriminate]. }
  assert (H2 : ∀ j : nat, benign ((λ _, EnvNop) j) = true) by reflexivity.
  assert (H3 : db_available w_conn = true) by reflexivity.
  assert (H4 : ws_live (Some 3) w_conn) by (simpl; apply not_elem_of_empty).
  exact (anthropic_error_event_completes _ _ (λ _, EnvNop) w_conn 1 7 "m" 5 (Some 3)
           H1 H2 H3 H4).
Defined.

(** X14: the Anthropic request sends every non-system message, in order,
    and as "system" only the content of the last system message, and only
    when that content is truthy: earlier system messages are dropped. *)
Theorem anthropic_request_system msgs :
  anthropic_request msgs =
  (match last (List.filter (fun m => String.eqb (turn_role m) "system") msgs) with
   | Some m => if py_truthy (turn_content m) then Some (turn_content m) else None
   | None => None
   end,
   List.filter (fun m => negb (String.eqb (turn_role m) "system")) msgs).
Proof.
  unfold anthropic_request. rewrite anthropic_split_spec. simpl.
  by destruct (last _).
Qed.

(** X15: a message deleted through delete_message contributes nothing to
    the conversation sent with a new message; the others are kept, in
    order. *)
Theorem deleted_message_left_out pre i r post :
  build_conversation (pre ++ mkRow i r deleted_content :: post) =
  build_conversation (pre ++ post).
Proof.
  rewrite !build_conversation_app.
  assert (H : build_conversation (mkRow i r deleted_content :: post) =
              build_conversation post).
  { simpl. by destruct (build_conversation post). }
  by rewrite H.
Qed.

(** X16: a resume sends the provider only the conversation before the
    partial message: neither the partial message's own text nor any later
    message. *)
Theorem resume_prompt_stops_before_partial message_id pre role c post :
  (∀ r, r ∈ pre → row_id r ≠ message_id) →
  conversation_before message_id (pre ++ mkRow message_id role c :: post) =
  build_conversation pre.
Proof.
  intros Hpre. induction pre as [|msg pre IH]; simpl.
  - by rewrite Nat.eqb_refl.
  - rewrite (proj2 (Nat.eqb_neq _ _)) by (apply Hpre; set_solver).
    rewrite IH by (intros r Hr; apply Hpre; set_solver). done.
Qed.

Lemma resume_prompt_stops_before_partial_witness :
  (∀ r, r ∈ [mkRow 0 "user" (JObj [("text", JStr "hi")])] → row_id r ≠ 1) ∧
  conversation_before 1 ([mkRow 0 "user" (JObj [("text", JStr "hi")])] ++
                         mkRow 1 "assistant" (JObj [("text", JStr "Hel")]) :: []) =
  build_conversation [mkRow 0 "user" (JObj [("text", JStr "hi")])].
Proof.
  assert (H : ∀ r, r ∈ [mkRow 0 "user" (JObj [("text", JStr "hi")])] → row_id r ≠ 1).
  { intros r Hr. rewrite list_elem_of_singleton in Hr. by subst. }
  split; [exact H|].
  exact (resume_prompt_stops_before_partial 1 _ "assistant" _ [] H).
Defined.

(** X18: only json.JSONDecodeError is caught: a data line that parses
    but whose shape the provider's lookups reject (a "choices" that is not
    a list or string, an event that is not an object, ...) raises out of
    the stream, and no later line is read. *)
Theorem shape_error_stops_stream loads p l2 data e :
  loads p = Some data → p ≠ "[DONE]" →
  (openai_chunk data = inl e →
   openai_lines loads (("data: " +:+ p) :: l2) = ([], Some e)) ∧
  (anthropic_event data = inl e →
   anthropic_lines loads (("data: " +:+ p) :: l2) = ([], Some e)).
Proof.
  intros Hl Hd. split; intros He; cbn -[String.prefix data_payload String.append];
    rewrite prefix_data, data_payload_data, Hl, He; [|done].
  by destruct (String.eqb_spec p "[DONE]").
Qed.

Lemma shape_error_stops_stream_witness :
  (λ s : string, if String.eqb s "E" then Some (JObj [("choices", JNull)]) else None) "E"
    = Some (JObj [("choices", JNull)]) ∧
  "E" ≠ "[DONE]" ∧
  openai_chunk (JObj [("choices", JNull)]) = inl PyTypeError ∧
  openai_lines (λ s, if String.eqb s "E" then Some (JObj [("choices", JNull)]) else None)
    (("data: " +:+ "E") :: ["data: F"]) = ([], Some PyTypeError).
Proof.
  assert (Hc : openai_chunk (JObj [("choices", JNull)]) = inl PyTypeError) by reflexivity.
  split; [reflexivity|]. split; [discriminate|]. split; [exact Hc|].
  exact (proj1 (shape_error_stops_stream
                  (λ s, if String.eqb s "E" then Some (JObj [("choices", JNull)]) else None)
                  "E" ["data: F"] (JObj [("choices", JNull)]) PyTypeError
                  eq_refl ltac:(discriminate)) Hc).
Defined.
